(** * Hello Chipmunk (World): the frame loop of [main.go]

    The program builds one physics space (a static ground segment and a
    dynamic ball), steps it once per frame while a simulated clock is below
    a cutoff, and draws the ball.  The physics engine ([cp]) and the game
    framework ([ebiten]) are external: their objects live in a heap that the
    program reaches through references, and the engine's [Step] is a
    parameter of the development.

    [float64] is Rocq's primitive binary64 [float]; Go's [int] is [Z]. *)

From Stdlib Require Import ZArith Lia Bool String.
From Stdlib Require Import Floats.
From stdpp Require Import base list.

Set Warnings "-inexact-float".

Local Open Scope Z_scope.

(** ** Constants of [main.go] *)

Definition title : string := "Hello Chipmunk (World)".
Definition simulateMaxSeconds : Z := 6.
Definition screenWidth : Z := 800.
Definition screenHeight : Z := 600.

(** Go's conversion [float64(n)] of an integer: the nearest binary64 value,
    ties to even. *)
Definition float64 (n : Z) : float :=
  SF2Prim (binary_normalize prec emax n 0 false).

(** ** The objects of the physics library [cp] *)

(** Modelled from the spec: the declarations of [cp] are not part of the
    repository.  A World (a [cp.Space]) holds the gravity vector and owns
    the bodies and shapes added to it; a Body is a point mass with position,
    velocity, orientation and moment of inertia; a Shape is a segment or a
    circle attached to a body, with a friction coefficient. *)
Record Vector : Type := { X : float; Y : float }.

(** Go's zero value [cp.Vector{}]. *)
Definition Vector0 : Vector := {| X := 0; Y := 0 |}.

Inductive BodyType : Type := Dynamic | Static.

Record Body : Type := {
  kind : BodyType;
  mass : float;
  moment : float;
  position : Vector;
  velocity : Vector;
  angle : float
}.

(** References stand for Go pointers: an index into the heap of the objects
    of that type. *)
Definition BodyRef : Type := nat.
Definition ShapeRef : Type := nat.
Definition SpaceRef : Type := nat.
Definition ImageRef : Type := nat.

Inductive Geometry : Type :=
| Segment (a b : Vector) (r : float)
| Circle (radius : float) (offset : Vector).

Record Shape : Type := {
  body : BodyRef;
  geometry : Geometry;
  friction : float
}.

(** ** The objects of the game framework [ebiten] *)

Inductive Color : Type := color_White | colornames_Black.

Inductive ColorM : Type := ColorM_Scale (r g b a : float).
Inductive GeoM : Type := GeoM_Translate (tx ty : float).

(** [ebiten.DrawImageOptions]: the colour and geometry transformations
    applied so far, oldest first. *)
Record DrawImageOptions : Type := {
  opColorM : list ColorM;
  opGeoM : list GeoM
}.

(** The result of [fmt.Sprintf], kept as the format and its arguments. *)
Inductive Text : Type := Sprintf (format : string) (args : list float).

(** What has been drawn on an image, oldest first. *)
Inductive DrawOp : Type :=
| OpFill (c : Color)
| OpDrawLine (x1 y1 x2 y2 : float) (c : Color)
| OpDrawImage (src : ImageRef) (op : DrawImageOptions)
| OpDebugPrint (t : Text).

Record Image : Type := {
  width : Z;
  height : Z;
  drawn : list DrawOp
}.

(** ** The receiver of the methods: [type Game struct] *)

Record Game : Type := {
  space : SpaceRef;
  ballBody : BodyRef;
  time : float
}.

(** Go's [error]: [nil] or an error value. *)
Inductive error : Type := nil_error | an_error (msg : string).

#[global] Instance Vector_inhabited : Inhabited Vector := populate Vector0.
#[global] Instance Body_inhabited : Inhabited Body :=
  populate {| kind := Dynamic; mass := 0; moment := 0; position := Vector0;
              velocity := Vector0; angle := 0 |}.
#[global] Instance Shape_inhabited : Inhabited Shape :=
  populate {| body := 0%nat; geometry := Circle 0 Vector0; friction := 0 |}.
#[global] Instance Image_inhabited : Inhabited Image :=
  populate {| width := 0; height := 0; drawn := [] |}.

(** ** The heap *)

Record Space : Type := {
  gravity : Vector;
  StaticBody : BodyRef;
  spaceBodies : list BodyRef;
  spaceShapes : list ShapeRef
}.

#[global] Instance Space_inhabited : Inhabited Space :=
  populate {| gravity := Vector0; StaticBody := 0%nat; spaceBodies := [];
              spaceShapes := [] |}.

(** Everything the physics library owns, and so everything a [Step] of the
    engine reads and writes. *)
Record Physics : Type := {
  bodies : list Body;
  shapes : list Shape;
  spaces : list Space
}.

(** The heap: the physics objects, the images, the framework's
    ticks-per-second setting, and the time steps of the [Step] calls made so
    far (oldest first). *)
Record Heap : Type := {
  physics : Physics;
  images : list Image;
  maxTPS : Z;
  stepped : list float
}.

(** ** A state monad over the heap *)

(** A computation reads and writes the heap and returns a result.
    [x ← c; k] runs [c], binds its result to [x] and runs [k];
    [c;; k] drops the result of [c]. *)
Definition M (A : Type) : Type := Heap -> A * Heap.

#[global] Instance M_ret : MRet M := fun A (a : A) h => (a, h).

#[global] Instance M_bind : MBind M := fun A B (k : A -> M B) (c : M A) h =>
  let (a, h') := c h in k a h'.

Definition with_physics (f : Physics -> Physics) : M unit :=
  fun h => (tt, {| physics := f (physics h); images := images h;
                   maxTPS := maxTPS h; stepped := stepped h |}).

Definition with_images (f : list Image -> list Image) : M unit :=
  fun h => (tt, {| physics := physics h; images := f (images h);
                   maxTPS := maxTPS h; stepped := stepped h |}).

Definition set_bodies (f : list Body -> list Body) (p : Physics) : Physics :=
  {| bodies := f (bodies p); shapes := shapes p; spaces := spaces p |}.

Definition set_shapes (f : list Shape -> list Shape) (p : Physics) : Physics :=
  {| bodies := bodies p; shapes := f (shapes p); spaces := spaces p |}.

Definition set_spaces (f : list Space -> list Space) (p : Physics) : Physics :=
  {| bodies := bodies p; shapes := shapes p; spaces := f (spaces p) |}.

(** Allocation: the new object goes to the end of its heap, and its index
    is the reference. *)
Definition alloc_body (b : Body) : M BodyRef :=
  fun h => (length (bodies (physics h)),
            snd (with_physics (set_bodies (fun l => l ++ [b])) h)).

Definition alloc_shape (s : Shape) : M ShapeRef :=
  fun h => (length (shapes (physics h)),
            snd (with_physics (set_shapes (fun l => l ++ [s])) h)).

Definition alloc_space (s : Space) : M SpaceRef :=
  fun h => (length (spaces (physics h)),
            snd (with_physics (set_spaces (fun l => l ++ [s])) h)).

Definition alloc_image (i : Image) : M ImageRef :=
  fun h => (length (images h), snd (with_images (fun l => l ++ [i]) h)).

(** ** The calls into [cp] *)

(** Modelled from the spec: the functions of [cp] are not part of the
    repository.  Each does to the objects above what the spec's contract of
    the physics library names: create a world, set its gravity, add static
    and dynamic bodies and shapes with friction, query position and
    velocity.  A new dynamic body is at rest at the origin; the static body
    of a space has infinite mass. *)
Definition NewBody (m i : float) : M BodyRef :=
  alloc_body {| kind := Dynamic; mass := m; moment := i; position := Vector0;
                velocity := Vector0; angle := 0 |}.

Definition NewStaticBody : M BodyRef :=
  alloc_body {| kind := Static; mass := infinity; moment := infinity;
                position := Vector0; velocity := Vector0; angle := 0 |}.

Definition NewSpace : M SpaceRef :=
  sb ← NewStaticBody;
  alloc_space {| gravity := Vector0; StaticBody := sb; spaceBodies := [];
                 spaceShapes := [] |}.

Definition SetGravity (sp : SpaceRef) (g : Vector) : M unit :=
  with_physics (set_spaces (alter (fun s =>
    {| gravity := g; StaticBody := StaticBody s; spaceBodies := spaceBodies s;
       spaceShapes := spaceShapes s |}) sp)).

Definition get_StaticBody (sp : SpaceRef) : M BodyRef :=
  fun h => (StaticBody (spaces (physics h) !!! sp), h).

Definition NewSegment (b : BodyRef) (a c : Vector) (r : float) : M ShapeRef :=
  alloc_shape {| body := b; geometry := Segment a c r; friction := 0 |}.

Definition NewCircle (b : BodyRef) (radius : float) (offset : Vector) : M ShapeRef :=
  alloc_shape {| body := b; geometry := Circle radius offset; friction := 0 |}.

Definition SetFriction (sh : ShapeRef) (u : float) : M unit :=
  with_physics (set_shapes (alter (fun s =>
    {| body := body s; geometry := geometry s; friction := u |}) sh)).

Definition AddShape (sp : SpaceRef) (sh : ShapeRef) : M ShapeRef :=
  with_physics (set_spaces (alter (fun s =>
    {| gravity := gravity s; StaticBody := StaticBody s;
       spaceBodies := spaceBodies s; spaceShapes := spaceShapes s ++ [sh] |})
    sp));;
  mret sh.

Definition AddBody (sp : SpaceRef) (b : BodyRef) : M BodyRef :=
  with_physics (set_spaces (alter (fun s =>
    {| gravity := gravity s; StaticBody := StaticBody s;
       spaceBodies := spaceBodies s ++ [b]; spaceShapes := spaceShapes s |})
    sp));;
  mret b.

Definition SetPosition (b : BodyRef) (p : Vector) : M unit :=
  with_physics (set_bodies (alter (fun x =>
    {| kind := kind x; mass := mass x; moment := moment x; position := p;
       velocity := velocity x; angle := angle x |}) b)).

Definition Position (b : BodyRef) : M Vector :=
  fun h => (position (bodies (physics h) !!! b), h).

Definition Velocity (b : BodyRef) : M Vector :=
  fun h => (velocity (bodies (physics h) !!! b), h).

(** ** The calls into [ebiten] *)

(** Modelled from the spec: the functions of [ebiten] are not part of the
    repository.  [MaxTPS] reads the framework's setting; the drawing
    functions add to what has been drawn on the destination image. *)
Definition MaxTPS : M Z := fun h => (maxTPS h, h).

Definition NewImage (w h : Z) : M ImageRef :=
  alloc_image {| width := w; height := h; drawn := [] |}.

Definition draw_on (img : ImageRef) (op : DrawOp) : M unit :=
  with_images (alter (fun i =>
    {| width := width i; height := height i; drawn := drawn i ++ [op] |}) img).

Definition Fill (img : ImageRef) (c : Color) : M unit := draw_on img (OpFill c).

Definition DrawLine (dst : ImageRef) (x1 y1 x2 y2 : float) (c : Color) : M unit :=
  draw_on dst (OpDrawLine x1 y1 x2 y2 c).

Definition DrawImage (dst src : ImageRef) (op : DrawImageOptions) : M unit :=
  draw_on dst (OpDrawImage src op).

Definition DebugPrint (dst : ImageRef) (t : Text) : M unit :=
  draw_on dst (OpDebugPrint t).

(** ** A stand-in engine

    The theorems below hold for every engine.  Where one of them is run on a
    concrete machine, the engine is this one: bodies fall freely under the
    gravity of the space, without collisions. *)

Definition circle_moment (m r1 r2 : float) (offset : Vector) : float :=
  (m * (0.5 * (r1 * r1 + r2 * r2) + (X offset * X offset + Y offset * Y offset)))%float.

Definition fall (g : Vector) (dt : float) (b : Body) : Body :=
  match kind b with
  | Static => b
  | Dynamic =>
      {| kind := kind b; mass := mass b; moment := moment b;
         position := {| X := (X (position b) + X (velocity b) * dt)%float;
                        Y := (Y (position b) + Y (velocity b) * dt)%float |};
         velocity := {| X := (X (velocity b) + X g * dt)%float;
                        Y := (Y (velocity b) + Y g * dt)%float |};
         angle := angle b |}
  end.

Definition freefall_Step (sp : SpaceRef) (dt : float) (p : Physics) : Physics :=
  set_bodies (fmap (fall (gravity (spaces p !!! sp)) dt)) p.

(** ** The program, over an engine

    [cp.Space.Step] and [cp.MomentForCircle] belong to the external engine. *)

Section Program.

Variable Step : SpaceRef -> float -> Physics -> Physics.
Variable MomentForCircle : float -> float -> float -> Vector -> float.

(** [space.Step(dt)]: the engine advances the physics objects; the call is
    recorded. *)
Definition Space_Step (sp : SpaceRef) (dt : float) : M unit :=
  fun h => (tt, {| physics := Step sp dt (physics h); images := images h;
                   maxTPS := maxTPS h; stepped := stepped h ++ [dt] |}).

(** ** [main.go]: the package variable [ball] and [init] *)

(** [var ball = ebiten.NewImage(5, 5)] is the first image the program
    allocates; [init] fills it. *)
Definition ball : ImageRef := 0%nat.

Definition init : M unit :=
  b ← NewImage 5 5;
  Fill b color_White.

(** ** [NewGame] *)

Definition NewGame : M Game :=
  let gravity := {| X := 0; Y := 100 |} in
  space ← NewSpace;
  SetGravity space gravity;;
  sb ← get_StaticBody space;
  ground ← NewSegment sb Vector0
             {| X := float64 screenWidth; Y := float64 screenHeight |} 0;
  SetFriction ground 1;;
  AddShape space ground;;
  let radius : float := 5%float in
  let mass : float := 1%float in
  let moment := MomentForCircle mass 0 radius Vector0 in
  b ← NewBody mass moment;
  ballBody ← AddBody space b;
  SetPosition ballBody {| X := float64 (screenWidth / 2);
                          Y := float64 (screenHeight / 4) |};;
  c ← NewCircle ballBody radius Vector0;
  ballShape ← AddShape space c;
  SetFriction ballShape 0.7;;
  mret {| space := space; ballBody := ballBody; time := 0 |}.

(** ** [Game.Update]

    The receiver is passed in and its value after the call is returned with
    the result. *)

Definition Update (g : Game) : M (Game * error) :=
  tps ← MaxTPS;
  let timeStep := (1 / float64 tps)%float in
  let g := {| space := space g; ballBody := ballBody g;
              time := (time g + timeStep)%float |} in
  (if (time g <? float64 simulateMaxSeconds)%float
   then Space_Step (space g) timeStep
   else mret tt);;
  mret (g, nil_error).

(** ** [Game.Draw] *)

Definition Draw (g : Game) (screen : ImageRef) : M Game :=
  Fill screen colornames_Black;;
  DrawLine screen 0 0 (float64 screenWidth) (float64 screenHeight) color_White;;
  let op := {| opColorM := []; opGeoM := [] |} in
  let op := {| opColorM := opColorM op ++
                 [ColorM_Scale (200 / 255) (200 / 255) (200 / 255) 1];
               opGeoM := opGeoM op |} in
  px ← Position (ballBody g);
  py ← Position (ballBody g);
  let op := {| opColorM := opColorM op;
               opGeoM := opGeoM op ++ [GeoM_Translate (X px) (Y py)] |} in
  DrawImage screen ball op;;
  (if (time g <? float64 simulateMaxSeconds)%float
   then
     pos ← Position (ballBody g);
     vel ← Velocity (ballBody g);
     DebugPrint screen
       (Sprintf "Time is %5.2f. ballBody is at (%5.2f, %5.2f). It's velocity is (%5.2f, %5.2f)"
                [time g; X pos; Y pos; X vel; Y vel])
   else mret tt);;
  mret g.

(** ** [Game.Layout] *)

Definition Layout (g : Game) (outsideWidth outsideHeight : Z) : Z * Z :=
  (screenWidth, screenHeight).

(** ** The run of the program

    [main] hands [NewGame()] to [ebiten.RunGame], which from then on calls
    the three methods of the game, in an order of its choosing. *)

Record Machine : Type := { game : Game; heap : Heap }.

Inductive Call : Type :=
| CallUpdate
| CallDraw (screen : ImageRef)
| CallLayout (outsideWidth outsideHeight : Z).

Definition exec (c : Call) (m : Machine) : Machine :=
  match c with
  | CallUpdate =>
      let (r, h) := Update (game m) (heap m) in {| game := fst r; heap := h |}
  | CallDraw screen =>
      let (g, h) := Draw (game m) screen (heap m) in {| game := g; heap := h |}
  | CallLayout w h => m
  end.

(** The calls are executed from the head of the list. *)
Definition run (cs : list Call) (m : Machine) : Machine :=
  foldl (fun m c => exec c m) m cs.

(** The heap before the program has allocated anything, with the
    framework's setting of the ticks per second. *)
Definition empty_heap (tps : Z) : Heap :=
  {| physics := {| bodies := []; shapes := []; spaces := [] |};
     images := []; maxTPS := tps; stepped := [] |}.

(** Package initialisation followed by [NewGame()]. *)
Definition start (tps : Z) : Machine :=
  let (g, h) := (init;; NewGame) (empty_heap tps) in {| game := g; heap := h |}.

(** Modelled from the spec: the framework's default number of ticks per
    second is not part of the repository; the example scenario has the fixed
    step 1/60 s, and [main] never changes the setting. *)
Definition DefaultTPS : Z := 60.

Definition boot : Machine := start DefaultTPS.

Inductive reachable : Machine -> Prop :=
| reachable_boot : reachable boot
| reachable_exec c m : reachable m -> reachable (exec c m).

(** ** What the claims observe *)

Definition ballPosition (m : Machine) : Vector :=
  fst (Position (ballBody (game m)) (heap m)).

Definition ballVelocity (m : Machine) : Vector :=
  fst (Velocity (ballBody (game m)) (heap m)).

Definition clock (m : Machine) : float := time (game m).

Definition world (m : Machine) : Physics := physics (heap m).

(** The cutoff as [Update] and [Draw] compare against it, and the time
    step [Update] computes in the state of the machine. *)
Definition cutoff : float := float64 simulateMaxSeconds.

Definition fixedStep (m : Machine) : float :=
  (1 / float64 (maxTPS (heap m)))%float.

(** The time step of the program as [main] starts it. *)
Definition defaultStep : float := (1 / float64 DefaultTPS)%float.

(** One [Update] call took [m] to [m'] with one physics step of [dt]. *)
Definition advanced_by_one_step (dt : float) (m m' : Machine) : Prop :=
  world m' = Step (space (game m)) dt (world m) /\
  stepped (heap m') = stepped (heap m) ++ [dt] /\
  clock m' = (clock m + dt)%float /\
  (clock m <? clock m')%float = true.

(** The ball's position and velocity after each of [n] [Update] calls. *)
Definition observe (m : Machine) : Vector * Vector :=
  (ballPosition m, ballVelocity m).

Fixpoint trajectory (n : nat) (m : Machine) : list (Vector * Vector) :=
  match n with
  | O => []
  | S n => let m' := exec CallUpdate m in observe m' :: trajectory n m'
  end.

(** The same along any run: the ball is observed after each [Update] call
    of the run. *)
Fixpoint observations (cs : list Call) (m : Machine) : list (Vector * Vector) :=
  match cs with
  | [] => []
  | CallUpdate :: cs =>
      let m' := exec CallUpdate m in observe m' :: observations cs m'
  | c :: cs => observations cs (exec c m)
  end.

(** The number of [Update] calls of a run. *)
Fixpoint updates (cs : list Call) : nat :=
  match cs with
  | [] => O
  | CallUpdate :: cs => S (updates cs)
  | _ :: cs => updates cs
  end.

(** What the trajectory of the ball depends on. *)
Definition core (m : Machine) : Game * Physics * Z :=
  (game m, world m, maxTPS (heap m)).

(** The clock after [k] additions of [dt], starting at zero. *)
Fixpoint tick (dt : float) (k : nat) : float :=
  match k with
  | O => 0%float
  | S k => (tick dt k + dt)%float
  end.

(** [rising n dt x]: each of the next [n] additions of [dt] to [x] gives a
    strictly greater value. *)
Fixpoint rising (n : nat) (dt x : float) : bool :=
  match n with
  | O => true
  | S n => (x <? x + dt)%float && rising n dt (x + dt)%float
  end.

(** [below n dt x]: each of the next [n] additions of [dt] to [x] gives a
    value below the cutoff. *)
Fixpoint below (n : nat) (dt x : float) : bool :=
  match n with
  | O => true
  | S n => (x + dt <? cutoff)%float && below n dt (x + dt)%float
  end.

(** A float with the sign bit clear: zero, a positive number or infinity. *)
Definition SFnonneg (x : spec_float) : bool :=
  match x with
  | S754_zero false | S754_infinity false | S754_finite false _ _ => true
  | _ => false
  end.

(** The order of two binary floating-point values [m1 * 2^e1] and
    [m2 * 2^e2], stated over the integers at every common base. *)
Definition val_le (m1 e1 m2 e2 : Z) : Prop :=
  forall b, b <= e1 -> b <= e2 -> m1 * 2 ^ (e1 - b) <= m2 * 2 ^ (e2 - b).

(** * Properties *)

(** ** Binary64 addition does not go below a bound

    The specification of the primitive floats gives [x + y] as the rounding
    of the exact sum; what follows is about that rounding. *)

(** The number of binary digits of a mantissa brackets it between two
    powers of two. *)
Lemma digits2_pos_bounds (p : positive) :
  2 ^ (Z.pos (digits2_pos p) - 1) <= Z.pos p < 2 ^ Z.pos (digits2_pos p).
Proof.
  induction p as [p IH | p IH | ]; cbn [digits2_pos].
  - rewrite Pos2Z.inj_succ, Z.pow_succ_r by lia.
    replace (Z.succ (Z.pos (digits2_pos p)) - 1) with (Z.succ (Z.pos (digits2_pos p) - 1)) by lia.
    rewrite Z.pow_succ_r by lia. lia.
  - rewrite Pos2Z.inj_succ, Z.pow_succ_r by lia.
    replace (Z.succ (Z.pos (digits2_pos p)) - 1) with (Z.succ (Z.pos (digits2_pos p) - 1)) by lia.
    rewrite Z.pow_succ_r by lia. lia.
  - cbn. lia.
Qed.

Lemma Zdigits2_bounds (m : Z) :
  0 < m -> 2 ^ (Zdigits2 m - 1) <= m < 2 ^ Zdigits2 m.
Proof.
  destruct m as [ | p | p ]; try lia. intros _. apply digits2_pos_bounds.
Qed.

(** Shifting a mantissa left multiplies it by a power of two and adds
    as many digits. *)
Lemma iter_xO_value (m d : positive) :
  Z.pos (Pos.iter xO m d) = Z.pos m * 2 ^ Z.pos d.
Proof.
  induction d as [ | d IH ] using Pos.peano_ind.
  - cbn. lia.
  - rewrite Pos.iter_succ, Pos2Z.inj_succ, Z.pow_succ_r by lia.
    rewrite (Pos2Z.inj_xO (Pos.iter xO m d)), IH. lia.
Qed.

Lemma iter_xO_digits (m d : positive) :
  Z.pos (digits2_pos (Pos.iter xO m d)) = Z.pos (digits2_pos m) + Z.pos d.
Proof.
  induction d as [ | d IH ] using Pos.peano_ind.
  - cbn. lia.
  - rewrite Pos.iter_succ. cbn [digits2_pos]. lia.
Qed.

(** Shifting right divides the mantissa, rounding down; the bits shifted
    out only go to the rounding and sticky bits. *)
Lemma shr_1_m (r : shr_record) : 0 <= shr_m r -> shr_m (shr_1 r) = shr_m r / 2.
Proof.
  destruct r as [m r s]; cbn [shr_m]. intros Hm.
  destruct m as [ | [p | p | ] | p ]; cbn [shr_1 shr_m]; try lia.
  - reflexivity.
  - rewrite Pos2Z.inj_xI. apply Z.div_unique with (r := 1); lia.
  - rewrite Pos2Z.inj_xO. apply Z.div_unique with (r := 0); lia.
  - reflexivity.
Qed.

Lemma iter_shr_1_m (n : positive) (r : shr_record) :
  0 <= shr_m r -> shr_m (SpecFloat.iter_pos shr_1 n r) = shr_m r / 2 ^ Z.pos n.
Proof.
  revert r. induction n as [n IH | n IH | ]; intros r Hr; cbn [SpecFloat.iter_pos].
  - assert (H1 : 0 <= shr_m (shr_1 r)) by (rewrite shr_1_m by done; apply Z.div_pos; lia).
    assert (H2 : 0 <= shr_m (SpecFloat.iter_pos shr_1 n (shr_1 r)))
      by (rewrite IH by done; apply Z.div_pos; lia).
    rewrite IH, IH, shr_1_m by done.
    rewrite !Z.div_div by lia. f_equal.
    rewrite (Pos2Z.inj_xI n), Z.pow_add_r, Z.pow_twice_r, Z.pow_1_r by lia. lia.
  - assert (H2 : 0 <= shr_m (SpecFloat.iter_pos shr_1 n r))
      by (rewrite IH by done; apply Z.div_pos; lia).
    rewrite IH, IH by done.
    rewrite !Z.div_div by lia. f_equal.
    rewrite (Pos2Z.inj_xO n), Z.pow_twice_r by lia. lia.
  - rewrite shr_1_m by done. reflexivity.
Qed.

Lemma shr_cases (mrs : shr_record) (e n : Z) :
  0 <= shr_m mrs ->
  (n <= 0 /\ shr mrs e n = (mrs, e)) \/
  (0 < n /\ shr_m (fst (shr mrs e n)) = shr_m mrs / 2 ^ n /\ snd (shr mrs e n) = e + n).
Proof.
  intros Hm. destruct n as [ | p | p ]; cbn [shr fst snd].
  - left. split; [lia | reflexivity].
  - right. split; [lia | ]. split; [ | reflexivity]. apply iter_shr_1_m, Hm.
  - left. split; [lia | reflexivity].
Qed.

Lemma round_nearest_even_bounds (q : Z) (l : location) :
  q <= round_nearest_even q l <= q + 1.
Proof.
  destruct l as [ | [ | | ] ]; cbn [round_nearest_even]; try lia.
  destruct (Z.even q); lia.
Qed.

Lemma fexp_binary64 (e : Z) : fexp prec emax e = Z.max (e - 53) (-1074).
Proof. reflexivity. Qed.

(** The order at one common base gives it at every other. *)
Lemma val_le_intro (b m1 e1 m2 e2 : Z) :
  b <= e1 -> b <= e2 -> m1 * 2 ^ (e1 - b) <= m2 * 2 ^ (e2 - b) ->
  val_le m1 e1 m2 e2.
Proof.
  intros H1 H2 H b' H1' H2'.
  set (c := Z.min b b').
  assert (Hc : m1 * 2 ^ (e1 - c) <= m2 * 2 ^ (e2 - c)).
  { replace (e1 - c) with ((e1 - b) + (b - c)) by lia.
    replace (e2 - c) with ((e2 - b) + (b - c)) by lia.
    rewrite !Z.pow_add_r by lia.
    assert (0 < 2 ^ (b - c)) by (apply Z.pow_pos_nonneg; lia).
    rewrite !Z.mul_assoc. apply Z.mul_le_mono_nonneg_r; lia. }
  replace (e1 - c) with ((e1 - b') + (b' - c)) in Hc by lia.
  replace (e2 - c) with ((e2 - b') + (b' - c)) in Hc by lia.
  rewrite !Z.pow_add_r, !Z.mul_assoc in Hc by lia.
  assert (0 < 2 ^ (b' - c)) by (apply Z.pow_pos_nonneg; lia).
  apply Z.mul_le_mono_pos_r in Hc; done.
Qed.

Lemma SFleb_finite_pos (mc m : positive) (ec e : Z) :
  ec < e \/ (ec = e /\ Z.pos mc <= Z.pos m) ->
  SFleb (S754_finite false mc ec) (S754_finite false m e) = true.
Proof.
  intros H. unfold SFleb, SFcompare.
  destruct (Z.compare_spec ec e) as [-> | Hlt | Hgt]; [ | reflexivity | lia].
  change (Pos.compare_cont Eq mc m) with (Pos.compare mc m).
  destruct (Pos.compare_spec mc m); [reflexivity | reflexivity | lia].
Qed.

(** Rounding to nearest is monotone against a representable bound: a
    positive value at or above a canonical float [mc * 2^ec] is rounded to
    a float, or to infinity, at or above it.  The exponent after rounding
    is at least [ec]; where it equals [ec], the mantissa is the quotient of
    the value by [2^ec], rounded down or up, and so at least [mc]. *)
Lemma binary_round_aux_ge (mc mz : positive) (ec ez : Z) :
  canonical_mantissa prec emax mc ec = true ->
  ez <= fexp prec emax (Z.pos (digits2_pos mz) + ez) ->
  val_le (Z.pos mc) ec (Z.pos mz) ez ->
  SFleb (S754_finite false mc ec)
        (binary_round_aux prec emax false (Z.pos mz) ez loc_Exact) = true.
Proof.
  intros Hc Hal Hv.
  apply Z.eqb_eq in Hc. rewrite fexp_binary64 in Hc, Hal.
  pose proof (digits2_pos_bounds mc) as Bc.
  pose proof (digits2_pos_bounds mz) as Bz.
  unfold binary_round_aux, shr_fexp. cbn [Zdigits2 shr_record_of_loc].
  rewrite fexp_binary64.
  set (dc := Z.pos (digits2_pos mc)) in *.
  set (dz := Z.pos (digits2_pos mz)) in *.
  assert (Hdc : 0 < dc) by (unfold dc; lia).
  assert (Hdz : 0 < dz) by (unfold dz; lia).
  assert (Hd : dc + ec <= dz + ez).
  { pose proof (Hv (Z.min ec ez) ltac:(lia) ltac:(lia)) as Hb.
    set (b := Z.min ec ez) in *.
    assert (Hlt : 2 ^ (dc - 1 + (ec - b)) < 2 ^ (dz + (ez - b))).
    { rewrite !Z.pow_add_r by lia.
      assert (0 < 2 ^ (ec - b)) by (apply Z.pow_pos_nonneg; lia).
      assert (0 < 2 ^ (ez - b)) by (apply Z.pow_pos_nonneg; lia).
      apply Z.le_lt_trans with (Z.pos mc * 2 ^ (ec - b)).
      - apply Z.mul_le_mono_nonneg_r; lia.
      - apply Z.le_lt_trans with (Z.pos mz * 2 ^ (ez - b)); [exact Hb | ].
        apply Z.mul_lt_mono_pos_r; lia. }
    apply Z.pow_lt_mono_r_iff in Hlt; lia. }
  set (f := Z.max (dz + ez - 53) (-1074)) in *.
  assert (Hf : ec <= f) by lia.
  destruct (shr _ ez (f - ez)) as [mrs' e'] eqn:E1.
  assert (He' : e' = f /\ shr_m mrs' = Z.pos mz / 2 ^ (f - ez)).
  { destruct (shr_cases {| shr_m := Z.pos mz; shr_r := false; shr_s := false |}
                ez (f - ez)) as [[Hn E] | (Hn & Em & Ee)]; [cbn; lia | | ].
    - rewrite E in E1. injection E1 as <- <-.
      replace (f - ez) with 0 by lia. cbn [shr_m].
      rewrite Z.pow_0_r, Z.div_1_r. split; [lia | reflexivity].
    - rewrite E1 in Em, Ee. cbn [fst snd shr_m] in Em, Ee. split; [lia | exact Em]. }
  destruct He' as [-> Hq].
  set (q := shr_m mrs') in *.
  assert (Hq1 : 1 <= q /\ (f = ec -> Z.pos mc <= q)).
  { assert (Hpow : 0 < 2 ^ (f - ez)) by (apply Z.pow_pos_nonneg; lia).
    destruct (Z.eq_dec f ec) as [Heq | Hne].
    - assert (Z.pos mc <= q).
      { rewrite Hq. apply Z.div_le_lower_bound; [exact Hpow | ].
        pose proof (Hv ez ltac:(lia) ltac:(lia)) as Hb.
        rewrite Z.sub_diag, Z.pow_0_r, Z.mul_1_r in Hb.
        rewrite Heq. lia. }
      split; [lia | done].
    - split; [ | lia].
      rewrite Hq. apply Z.div_le_lower_bound; [exact Hpow | ].
      assert (Hfd : f = dz + ez - 53) by lia.
      replace (dz - 1) with ((f - ez) + 52) in Bz by lia.
      rewrite Z.pow_add_r in Bz by lia.
      assert (1 <= 2 ^ 52) by (apply Z.pow_le_mono_r with (b := 0); lia).
      nia. }
  pose proof (round_nearest_even_bounds q (loc_of_shr_record mrs')) as Hr.
  set (m1 := round_nearest_even q (loc_of_shr_record mrs')) in *.
  pose proof (Zdigits2_bounds m1 ltac:(lia)) as B1.
  rewrite fexp_binary64. cbn [shr_record_of_loc].
  set (n2 := Z.max (Zdigits2 m1 + f - 53) (-1074) - f).
  destruct (shr _ f n2) as [mrs'' e''] eqn:E2.
  assert (Hfin : 0 < shr_m mrs'' /\
                 (ec < e'' \/ (ec = e'' /\ Z.pos mc <= shr_m mrs''))).
  { destruct (shr_cases {| shr_m := m1; shr_r := false; shr_s := false |}
                f n2) as [[Hn E] | (Hn & Em & Ee)]; [cbn; lia | | ].
    - rewrite E in E2. injection E2 as <- <-. cbn [shr_m]. lia.
    - rewrite E2 in Em, Ee. cbn [fst snd shr_m] in Em, Ee.
      split; [ | lia].
      rewrite Em.
      apply Z.lt_le_trans with 1; [lia | ].
      apply Z.div_le_lower_bound; [apply Z.pow_pos_nonneg; lia | ].
      assert (Hn2 : n2 = Zdigits2 m1 - 53) by lia.
      rewrite Z.mul_1_r.
      apply Z.le_trans with (2 ^ (Zdigits2 m1 - 1)); [ | lia].
      apply Z.pow_le_mono_r; lia. }
  destruct Hfin as [Hpos Hcmp].
  destruct (shr_m mrs'') as [ | m | m ]; [lia | | lia].
  destruct (e'' <=? emax - prec); [ | reflexivity].
  apply SFleb_finite_pos, Hcmp.
Qed.

Lemma shl_align_spec (mx : positive) (ex ex' : Z) :
  Z.pos (shl_align mx ex ex').1 = Z.pos mx * 2 ^ (ex - Z.min ex ex') /\
  (shl_align mx ex ex').2 = Z.min ex ex' /\
  Z.pos (digits2_pos (shl_align mx ex ex').1) + (shl_align mx ex ex').2
  = Z.pos (digits2_pos mx) + ex.
Proof.
  unfold shl_align. destruct (ex' - ex) as [ | d | d ] eqn:E; cbn [fst snd].
  - replace (ex - Z.min ex ex') with 0 by lia. rewrite Z.pow_0_r. lia.
  - replace (ex - Z.min ex ex') with 0 by lia. rewrite Z.pow_0_r. lia.
  - rewrite iter_xO_value, iter_xO_digits.
    replace (ex - Z.min ex ex') with (Z.pos d) by lia. lia.
Qed.

Lemma binary_round_ge (mc m : positive) (ec e : Z) :
  canonical_mantissa prec emax mc ec = true ->
  val_le (Z.pos mc) ec (Z.pos m) e ->
  SFleb (S754_finite false mc ec) (binary_round prec emax false m e) = true.
Proof.
  intros Hc Hv. unfold binary_round.
  set (f := fexp prec emax (Z.pos (digits2_pos m) + e)).
  destruct (shl_align_spec m e f) as (Hm & He & Hd).
  destruct (shl_align m e f) as [mz ez]. cbn [fst snd] in Hm, He, Hd.
  apply binary_round_aux_ge; [exact Hc | rewrite Hd; fold f; lia | ].
  apply val_le_intro with (b := Z.min ec ez); [lia | lia | ].
  rewrite Hm, <- He, <- Z.mul_assoc, <- Z.pow_add_r by lia.
  replace (e - ez + (ez - Z.min ec ez)) with (e - Z.min ec ez) by lia.
  apply Hv; lia.
Qed.

Lemma SFleb_finite_pos_inv (mc m : positive) (ec e : Z) :
  SFleb (S754_finite false mc ec) (S754_finite false m e) = true ->
  ec < e \/ (ec = e /\ Z.pos mc <= Z.pos m).
Proof.
  unfold SFleb, SFcompare.
  destruct (Z.compare_spec ec e) as [-> | Hlt | Hgt]; [ | lia | discriminate].
  change (Pos.compare_cont Eq mc m) with (Pos.compare mc m).
  destruct (Pos.compare_spec mc m); [lia | lia | discriminate].
Qed.

(** On canonical floats the comparison of the representations is the order
    of the values. *)
Lemma SFleb_val_le (mc mx : positive) (ec ex : Z) :
  canonical_mantissa prec emax mc ec = true ->
  canonical_mantissa prec emax mx ex = true ->
  SFleb (S754_finite false mc ec) (S754_finite false mx ex) = true ->
  val_le (Z.pos mc) ec (Z.pos mx) ex.
Proof.
  intros Hc Hx Hle. apply SFleb_finite_pos_inv in Hle.
  apply Z.eqb_eq in Hc, Hx. rewrite fexp_binary64 in Hc, Hx.
  pose proof (digits2_pos_bounds mc) as Bc.
  pose proof (digits2_pos_bounds mx) as Bx.
  intros b Hb1 Hb2.
  destruct Hle as [Hlt | [-> Hm]].
  - assert (Hdx : Z.pos (digits2_pos mx) = 53) by lia.
    assert (Hdc : Z.pos (digits2_pos mc) <= 53) by lia.
    rewrite Hdx in Bx. change (2 ^ (53 - 1)) with (2 ^ 52) in Bx.
    assert (Z.pos mc < 2 ^ 53).
    { apply Z.lt_le_trans with (2 ^ Z.pos (digits2_pos mc)); [lia | ].
      apply Z.pow_le_mono_r; lia. }
    assert (Hp : 0 < 2 ^ (ec - b)) by (apply Z.pow_pos_nonneg; lia).
    replace (ex - b) with ((ex - ec - 1) + 1 + (ec - b)) by lia.
    rewrite !Z.pow_add_r by lia.
    assert (1 <= 2 ^ (ex - ec - 1)) by (apply Z.pow_le_mono_r with (b := 0); lia).
    change (2 ^ 1) with 2.
    set (P := 2 ^ (ec - b)) in *. set (A := 2 ^ (ex - ec - 1)) in *.
    assert (H53 : 2 ^ 53 <= Z.pos mx * 2) by (change (2 ^ 53) with (2 ^ 52 * 2); lia).
    apply Z.le_trans with (2 ^ 53 * P); [apply Z.mul_le_mono_nonneg_r; lia | ].
    apply Z.le_trans with (Z.pos mx * 2 * P); [apply Z.mul_le_mono_nonneg_r; lia | ].
    replace (Z.pos mx * (A * 2 * P)) with (A * (Z.pos mx * 2 * P)) by ring.
    assert (0 <= Z.pos mx * 2 * P) by (apply Z.mul_nonneg_nonneg; lia).
    nia.
  - apply Z.mul_le_mono_nonneg_r; [apply Z.pow_nonneg; lia | lia].
Qed.

Lemma valid_binary_canonical (s : bool) (m : positive) (e : Z) :
  valid_binary (S754_finite s m e) = true -> canonical_mantissa prec emax m e = true.
Proof. cbn [SpecFloat.valid_binary]. unfold bounded. intros [H _]%andb_true_iff. exact H. Qed.

(** The sum of a float at or above a positive bound and of a float that is
    not negative is at or above the bound. *)
Lemma SFadd_ge (c x y : spec_float) :
  valid_binary c = true -> valid_binary x = true -> valid_binary y = true ->
  SFltb (S754_zero false) c = true ->
  SFleb c x = true ->
  SFleb (S754_zero false) y = true ->
  SFleb c (SFadd prec emax x y) = true.
Proof.
  intros Vc Vx Vy Hc Hx Hy.
  destruct c as [ [ | ] | [ | ] | | [ | ] mc ec ]; try discriminate Hc.
  - (* c is +infinity *)
    destruct x as [ [ | ] | [ | ] | | [ | ] mx ex ]; try discriminate Hx.
    destruct y as [ [ | ] | [ | ] | | [ | ] my ey ]; try discriminate Hy; reflexivity.
  - (* c is finite and positive *)
    destruct x as [ [ | ] | [ | ] | | [ | ] mx ex ]; try discriminate Hx.
    + destruct y as [ [ | ] | [ | ] | | [ | ] my ey ]; try discriminate Hy; reflexivity.
    + destruct y as [ [ | ] | [ | ] | | [ | ] my ey ]; try discriminate Hy;
        try exact Hx; try reflexivity.
      apply valid_binary_canonical in Vc, Vx.
      pose proof (SFleb_val_le _ _ _ _ Vc Vx Hx) as Hv.
      unfold SFadd. cbn [cond_Zopp].
      set (ez := Z.min ex ey).
      destruct (shl_align_spec mx ex ez) as (Hmx & _ & _).
      destruct (shl_align_spec my ey ez) as (Hmy & _ & _).
      set (mx' := (shl_align mx ex ez).1) in *.
      set (my' := (shl_align my ey ez).1) in *.
      cbn [Z.add binary_normalize].
      apply binary_round_ge; [exact Vc | ].
      apply val_le_intro with (b := Z.min ec ez); [lia | lia | ].
      rewrite Pos2Z.inj_add, Hmx.
      replace (Z.min ex ez) with ez by lia.
      rewrite Z.mul_add_distr_r, <- Z.mul_assoc, <- Z.pow_add_r by lia.
      replace (ex - ez + (ez - Z.min ec ez)) with (ex - Z.min ec ez) by lia.
      pose proof (Hv (Z.min ec ez) ltac:(lia) ltac:(lia)).
      assert (0 <= Z.pos my' * 2 ^ (ez - Z.min ec ez))
        by (apply Z.mul_nonneg_nonneg; [lia | apply Z.pow_nonneg; lia]).
      lia.
Qed.

Lemma SFcompare_antisym (a b : spec_float) :
  SFcompare b a = option_map CompOpp (SFcompare a b).
Proof.
  destruct a as [ [ | ] | [ | ] | | [ | ] m1 e1 ], b as [ [ | ] | [ | ] | | [ | ] m2 e2 ];
    cbn [SFcompare option_map CompOpp]; try reflexivity;
    rewrite (Z.compare_antisym e1 e2); destruct (e1 ?= e2)%Z; cbn [CompOpp];
    try reflexivity; f_equal.
  - f_equal. symmetry. exact (Pos.compare_cont_antisym m1 m2 Eq).
  - symmetry. exact (Pos.compare_cont_antisym m1 m2 Eq).
Qed.

Lemma SFleb_not_SFltb (a b : spec_float) :
  SFleb a b = true -> SFltb b a = false.
Proof.
  unfold SFleb, SFltb. rewrite (SFcompare_antisym a b).
  destruct (SFcompare a b) as [ [ | | ] | ]; cbn; congruence.
Qed.


(** Adding a value that is not negative to a clock at or above a positive
    bound leaves it at or above the bound: binary64 addition rounds to the
    nearest value, and the bound is one. *)
Lemma add_ge (c x y : float) :
  (0 <? c)%float = true -> (c <=? x)%float = true -> (0 <=? y)%float = true ->
  (c <=? x + y)%float = true.
Proof.
  rewrite ltb_spec, !leb_spec, add_spec.
  change (Prim2SF 0%float) with (S754_zero false).
  apply SFadd_ge; apply Prim2SF_valid.
Qed.

Lemma leb_not_ltb (a b : float) :
  (a <=? b)%float = true -> (b <? a)%float = false.
Proof. rewrite leb_spec, ltb_spec. apply SFleb_not_SFltb. Qed.

(** ** The frame loop *)

Local Open Scope float_scope.

Lemma cutoff_eq : cutoff = 6.
Proof. vm_compute. reflexivity. Qed.

(** [Update], run on a heap. *)
Lemma Update_unfold (g : Game) (h : Heap) :
  Update g h =
  let dt := 1 / float64 (maxTPS h) in
  let g' := {| space := space g; ballBody := ballBody g; time := time g + dt |} in
  if time g + dt <? cutoff
  then ((g', nil_error),
        {| physics := Step (space g) dt (physics h); images := images h;
           maxTPS := maxTPS h; stepped := stepped h ++ [dt] |})
  else ((g', nil_error), h).
Proof.
  unfold Update, cutoff, mbind, M_bind, mret, M_ret, MaxTPS, Space_Step.
  cbn [time space]. destruct (_ <? _); reflexivity.
Qed.

Lemma exec_Update_below (m : Machine) :
  (clock m + fixedStep m <? cutoff) = true ->
  exec CallUpdate m =
  {| game := {| space := space (game m); ballBody := ballBody (game m);
                time := clock m + fixedStep m |};
     heap := {| physics := Step (space (game m)) (fixedStep m) (world m);
                images := images (heap m); maxTPS := maxTPS (heap m);
                stepped := stepped (heap m) ++ [fixedStep m] |} |}.
Proof.
  intros H. unfold exec. rewrite Update_unfold. cbn zeta.
  unfold clock, fixedStep in H. rewrite H. reflexivity.
Qed.

Lemma exec_Update_above (m : Machine) :
  (clock m + fixedStep m <? cutoff) = false ->
  exec CallUpdate m =
  {| game := {| space := space (game m); ballBody := ballBody (game m);
                time := clock m + fixedStep m |};
     heap := heap m |}.
Proof.
  intros H. unfold exec. rewrite Update_unfold. cbn zeta.
  unfold clock, fixedStep in H. rewrite H. reflexivity.
Qed.

(** [Draw] writes to images only. *)
Lemma Draw_frame (g : Game) (screen : ImageRef) (h : Heap) :
  fst (Draw g screen h) = g /\
  physics (snd (Draw g screen h)) = physics h /\
  maxTPS (snd (Draw g screen h)) = maxTPS h /\
  stepped (snd (Draw g screen h)) = stepped h.
Proof.
  unfold Draw, mbind, M_bind, mret, M_ret, Fill, DrawLine, DrawImage,
    DebugPrint, draw_on, with_images, Position, Velocity.
  cbn [fst snd physics maxTPS stepped].
  destruct (time g <? float64 simulateMaxSeconds); cbn; auto.
Qed.

Lemma exec_Draw_core (screen : ImageRef) (m : Machine) :
  core (exec (CallDraw screen) m) = core m /\
  stepped (heap (exec (CallDraw screen) m)) = stepped (heap m).
Proof.
  destruct (Draw_frame (game m) screen (heap m)) as (Hg & Hp & Ht & Hs).
  unfold core, world, exec. destruct (Draw (game m) screen (heap m)) as [g h].
  cbn [fst snd game heap] in *. rewrite Hg, Hp, Ht, Hs. auto.
Qed.

(** ** [NewGame] *)

Lemma alter_last {A} (f : A -> A) (l : list A) (x : A) :
  alter f (length l) (l ++ [x]) = l ++ [f x].
Proof.
  rewrite alter_app_r_alt by lia. rewrite Nat.sub_diag. reflexivity.
Qed.

Lemma lookup_total_last {A} `{!Inhabited A} (l : list A) (x : A) :
  (l ++ [x]) !!! length l = x.
Proof. apply list_lookup_total_middle. reflexivity. Qed.

(** **** Claim C5.
    [NewGame] builds the example scenario and nothing else: on any heap it
    allocates the static body and the ball (dynamic, mass 1, at (400, 150)),
    the ground segment from (0, 0) to (800, 600) on the static body and the
    circle of radius 5 on the ball, and one space with gravity (0, 100) that
    holds them; the clock of the game starts at zero and the cutoff is 6. *)
Theorem NewGame_scenario (h : Heap) :
  let nb := length (bodies (physics h)) in
  let nsh := length (shapes (physics h)) in
  let nsp := length (spaces (physics h)) in
  NewGame h =
  ({| space := nsp; ballBody := S nb; time := 0 |},
   {| physics :=
        {| bodies := bodies (physics h) ++
             [ {| kind := Static; mass := infinity; moment := infinity;
                  position := Vector0; velocity := Vector0; angle := 0 |};
               {| kind := Dynamic; mass := 1;
                  moment := MomentForCircle 1 0 5 Vector0;
                  position := {| X := 400; Y := 150 |};
                  velocity := Vector0; angle := 0 |} ];
           shapes := shapes (physics h) ++
             [ {| body := nb;
                  geometry := Segment Vector0 {| X := 800; Y := 600 |} 0;
                  friction := 1 |};
               {| body := S nb; geometry := Circle 5 Vector0;
                  friction := 0.7 |} ];
           spaces := spaces (physics h) ++
             [ {| gravity := {| X := 0; Y := 100 |}; StaticBody := nb;
                  spaceBodies := [S nb]; spaceShapes := [nsh; S nsh] |} ] |};
      images := images h; maxTPS := maxTPS h; stepped := stepped h |})
  /\ cutoff = 6.
Proof.
  intros nb nsh nsp. split; [ | exact cutoff_eq].
  destruct h as [[bs ss sps] imgs tps st].
  cbn [physics bodies shapes spaces] in nb, nsh, nsp.
  lazy beta iota zeta delta
    [NewGame NewSpace NewStaticBody NewBody NewSegment NewCircle SetGravity
     SetFriction SetPosition AddShape AddBody get_StaticBody alloc_body
     alloc_shape alloc_space with_physics set_bodies set_shapes set_spaces
     mbind M_bind mret M_ret fst snd physics images maxTPS stepped bodies
     shapes spaces].
  rewrite ?alter_last, ?lookup_total_last.
  cbn [StaticBody body geometry friction kind mass moment position velocity
       angle gravity spaceBodies spaceShapes].
  rewrite !length_app. cbn [length app]. rewrite !Nat.add_1_r, <- !app_assoc.
  cbn [app].
  change (float64 (screenWidth `div` 2)) with 400.
  change (float64 (screenHeight `div` 4)) with 150.
  change (float64 screenWidth) with 800.
  change (float64 screenHeight) with 600.
  reflexivity.
Qed.

(** ** Invariants of a run *)

Lemma exec_Update_cases (m : Machine) :
  exec CallUpdate m =
  (if clock m + fixedStep m <? cutoff
   then {| game := {| space := space (game m); ballBody := ballBody (game m);
                      time := clock m + fixedStep m |};
           heap := {| physics := Step (space (game m)) (fixedStep m) (world m);
                      images := images (heap m); maxTPS := maxTPS (heap m);
                      stepped := stepped (heap m) ++ [fixedStep m] |} |}
   else {| game := {| space := space (game m); ballBody := ballBody (game m);
                      time := clock m + fixedStep m |};
           heap := heap m |}).
Proof.
  destruct (clock m + fixedStep m <? cutoff) eqn:E;
    [apply exec_Update_below | apply exec_Update_above]; exact E.
Qed.

Lemma exec_maxTPS (c : Call) (m : Machine) :
  maxTPS (heap (exec c m)) = maxTPS (heap m).
Proof.
  destruct c as [ | screen | w h ].
  - rewrite exec_Update_cases. destruct (_ <? _); reflexivity.
  - destruct (exec_Draw_core screen m) as [H _]. unfold core in H. congruence.
  - reflexivity.
Qed.

Lemma run_snoc (cs : list Call) (c : Call) (m : Machine) :
  run (cs ++ [c]) m = exec c (run cs m).
Proof. unfold run. rewrite foldl_app. reflexivity. Qed.

Lemma run_cons (c : Call) (cs : list Call) (m : Machine) :
  run (c :: cs) m = run cs (exec c m).
Proof. reflexivity. Qed.

Lemma start_maxTPS (tps : Z) : maxTPS (heap (start tps)) = tps.
Proof. vm_compute. reflexivity. Qed.

Lemma start_stepped (tps : Z) : stepped (heap (start tps)) = [].
Proof. vm_compute. reflexivity. Qed.

Lemma start_clock (tps : Z) : clock (start tps) = 0.
Proof. vm_compute. reflexivity. Qed.

Lemma reachable_run (cs : list Call) : reachable (run cs boot).
Proof.
  induction cs as [ | c cs IH ] using rev_ind.
  - apply reachable_boot.
  - rewrite run_snoc. apply reachable_exec, IH.
Qed.

Lemma reachable_maxTPS (m : Machine) :
  reachable m -> maxTPS (heap m) = DefaultTPS.
Proof.
  induction 1 as [ | c m _ IH ].
  - apply start_maxTPS.
  - rewrite exec_maxTPS. exact IH.
Qed.

Lemma reachable_fixedStep (m : Machine) :
  reachable m -> fixedStep m = defaultStep.
Proof. intros H. unfold fixedStep. rewrite (reachable_maxTPS m H). reflexivity. Qed.

Lemma exec_clock (c : Call) (m : Machine) :
  clock (exec c m) = match c with CallUpdate => clock m + fixedStep m | _ => clock m end.
Proof.
  destruct c as [ | screen | w h ].
  - rewrite exec_Update_cases. destruct (_ <? _); reflexivity.
  - destruct (exec_Draw_core screen m) as [H _]. unfold core in H.
    unfold clock. congruence.
  - reflexivity.
Qed.

Lemma reachable_clock (m : Machine) :
  reachable m -> exists k, clock m = tick defaultStep k.
Proof.
  induction 1 as [ | c m Hm [k Hk] ].
  - exists 0%nat. apply start_clock.
  - rewrite exec_clock. destruct c.
    + exists (S k). cbn [tick]. rewrite (reachable_fixedStep m Hm), Hk. reflexivity.
    + exists k. exact Hk.
    + exists k. exact Hk.
Qed.

(** ** The clock of the program *)

Lemma defaultStep_nonneg : (0 <=? defaultStep) = true.
Proof. vm_compute. reflexivity. Qed.

Lemma cutoff_pos : (0 <? cutoff) = true.
Proof. vm_compute. reflexivity. Qed.

(** Once at or above the cutoff, the clock stays there. *)
Lemma above_cutoff_stays (x dt : float) :
  (0 <=? dt) = true -> (cutoff <=? x) = true ->
  (cutoff <=? x + dt) = true /\ (x + dt <? cutoff) = false.
Proof.
  intros Hdt Hx.
  assert (H : (cutoff <=? x + dt) = true) by (apply add_ge; auto using cutoff_pos).
  split; [exact H | apply leb_not_ltb, H].
Qed.

Lemma tick_late (k : nat) :
  (361 <= k)%nat -> (cutoff <=? tick defaultStep k) = true.
Proof.
  induction 1 as [ | k _ IH ].
  - vm_compute. reflexivity.
  - cbn [tick]. apply above_cutoff_stays; [exact defaultStep_nonneg | exact IH].
Qed.

Lemma rising_spec (n : nat) (dt x : float) :
  rising n dt x = true ->
  forall k, (k < n)%nat ->
    (Nat.iter k (fun y => y + dt) x <? Nat.iter (S k) (fun y => y + dt) x) = true.
Proof.
  revert x. induction n as [ | n IH ]; intros x Hr k Hk; [lia | ].
  cbn [rising] in Hr. apply andb_true_iff in Hr as [H1 H2].
  destruct k as [ | k ]; [exact H1 | ].
  rewrite (Nat.iter_succ_r k), (Nat.iter_succ_r (S k)). apply IH; [exact H2 | lia].
Qed.

Lemma tick_iter (dt : float) (k : nat) :
  tick dt k = Nat.iter k (fun y => y + dt) 0.
Proof. induction k as [ | k IH ]; [reflexivity | ]. cbn [tick Nat.iter]. rewrite IH. reflexivity. Qed.

Lemma tick_early (k : nat) :
  (k < 361)%nat ->
  (tick defaultStep k <? tick defaultStep k + defaultStep) = true.
Proof.
  intros Hk. change (tick defaultStep k + defaultStep) with (tick defaultStep (S k)).
  rewrite !tick_iter. apply rising_spec with (n := 361%nat); [ | exact Hk].
  vm_compute. reflexivity.
Qed.

(** ** The claims about [Update] *)

(** At or above the cutoff, and with a time step that is not negative,
    [Update] only moves the clock. *)
Lemma Update_above_cutoff (m : Machine) :
  (0 <=? fixedStep m) = true ->
  (cutoff <=? clock m) = true ->
  exec CallUpdate m =
  {| game := {| space := space (game m); ballBody := ballBody (game m);
                time := clock m + fixedStep m |};
     heap := heap m |}.
Proof.
  intros Hs Hc. apply exec_Update_above.
  apply above_cutoff_stays; [exact Hs | exact Hc].
Qed.

(** **** Claim C1.
    In every state the program reaches, an [Update] call made with the clock
    at or above the cutoff leaves the physics world as it is, and with it
    the position and the velocity of the ball. *)
Theorem Update_freezes_world (m : Machine) :
  reachable m ->
  (cutoff <=? clock m) = true ->
  world (exec CallUpdate m) = world m /\
  ballPosition (exec CallUpdate m) = ballPosition m /\
  ballVelocity (exec CallUpdate m) = ballVelocity m.
Proof.
  intros Hr Hc. rewrite (Update_above_cutoff m); [auto | | exact Hc].
  rewrite (reachable_fixedStep m Hr). exact defaultStep_nonneg.
Qed.

(** **** Claim C2, amended.
    In every state the program reaches, an [Update] call for which the clock
    plus the time step is still below the cutoff advances the world by one
    physics step of that time step, and strictly increases the clock by
    exactly the time step. *)
Theorem Update_advances (m : Machine) :
  reachable m ->
  (clock m + fixedStep m <? cutoff) = true ->
  advanced_by_one_step (fixedStep m) m (exec CallUpdate m).
Proof.
  intros Hr Hlt. rewrite (exec_Update_below m Hlt).
  unfold advanced_by_one_step. cbn [world heap physics stepped clock game time].
  repeat split.
  rewrite (reachable_fixedStep m Hr) in *.
  destruct (reachable_clock m Hr) as [k Hk].
  rewrite Hk in *.
  destruct (Nat.lt_ge_cases k 361) as [Hk1 | Hk1]; [apply tick_early, Hk1 | ].
  pose proof (tick_late k Hk1) as Hge.
  destruct (above_cutoff_stays (tick defaultStep k) defaultStep
              defaultStep_nonneg Hge) as [_ Hno].
  congruence.
Qed.

(** **** Claim C3.
    Along every run of the program, whatever the calls and whatever the
    setting of the ticks per second it starts with, every time step handed
    to [Step] is the same value: one over that setting. *)
Theorem Step_time_step_constant (tps : Z) (cs : list Call) :
  Forall (fun dt => dt = 1 / float64 tps) (stepped (heap (run cs (start tps)))).
Proof.
  assert (G : forall cs m,
             Forall (fun dt => dt = fixedStep m) (stepped (heap m)) ->
             Forall (fun dt => dt = fixedStep m) (stepped (heap (run cs m)))).
  { clear cs. induction cs as [ | c cs IH ]; intros m Hm; [exact Hm | ].
    rewrite run_cons.
    assert (Hf : fixedStep (exec c m) = fixedStep m)
      by (unfold fixedStep; rewrite exec_maxTPS; reflexivity).
    rewrite <- Hf. apply IH. rewrite Hf.
    destruct c as [ | screen | w h ]; [ | | exact Hm].
    - rewrite exec_Update_cases. destruct (_ <? _); [ | exact Hm].
      cbn [heap stepped]. apply Forall_app. split; [exact Hm | ].
      constructor; [reflexivity | constructor].
    - destruct (exec_Draw_core screen m) as [_ ->]. exact Hm. }
  specialize (G cs (start tps)). unfold fixedStep in G.
  rewrite start_maxTPS in G. apply G.
  rewrite start_stepped. constructor.
Qed.

(** **** Claim C4, amended.
    Every [Update] call, below the cutoff or not, sets the clock to its
    value before the call plus the time step. *)
Theorem Update_clock (m : Machine) :
  clock (exec CallUpdate m) = clock m + fixedStep m.
Proof. apply (exec_clock CallUpdate). Qed.

(** **** Claim C8.
    [Update] returns the nil error in every state. *)
Theorem Update_returns_nil (g : Game) (h : Heap) :
  snd (fst (Update g h)) = nil_error.
Proof. rewrite Update_unfold. cbn zeta. destruct (_ <? _); reflexivity. Qed.

(** ** The claims about [Draw] and [Layout] *)

(** **** Claim C7.
    A [Draw] call, in any state and on any screen, leaves the physics world,
    the position and velocity of the ball and the clock as they are. *)
Theorem Draw_reads_only (screen : ImageRef) (m : Machine) :
  world (exec (CallDraw screen) m) = world m /\
  ballPosition (exec (CallDraw screen) m) = ballPosition m /\
  ballVelocity (exec (CallDraw screen) m) = ballVelocity m /\
  clock (exec (CallDraw screen) m) = clock m.
Proof.
  destruct (exec_Draw_core screen m) as [H _]. unfold core, world in H.
  set (m' := exec (CallDraw screen) m) in *.
  assert (Hg : game m' = game m) by congruence.
  assert (Hw : physics (heap m') = physics (heap m)) by congruence.
  unfold ballPosition, ballVelocity, Position, Velocity, clock, world.
  cbn [fst]. rewrite Hg, Hw. auto.
Qed.

(** **** Claim C10.
    [Layout] returns (800, 600) whatever the outside size. *)
Theorem Layout_fixed (g : Game) (outsideWidth outsideHeight : Z) :
  Layout g outsideWidth outsideHeight = (800, 600)%Z.
Proof. reflexivity. Qed.

(** ** Drawing and the trajectory of the ball *)

Lemma exec_Update_core (m1 m2 : Machine) :
  core m1 = core m2 -> core (exec CallUpdate m1) = core (exec CallUpdate m2).
Proof.
  unfold core, world. intros H.
  assert (Hg : game m1 = game m2) by congruence.
  assert (Hw : physics (heap m1) = physics (heap m2)) by congruence.
  assert (Ht : maxTPS (heap m1) = maxTPS (heap m2)) by congruence.
  rewrite !exec_Update_cases. unfold clock, fixedStep, world.
  rewrite Hg, Hw, Ht.
  destruct (_ <? _); cbn [game heap physics maxTPS]; rewrite ?Hw, ?Ht;
    reflexivity.
Qed.

Lemma observe_core (m1 m2 : Machine) :
  core m1 = core m2 -> observe m1 = observe m2.
Proof.
  unfold core, world. intros H.
  assert (Hg : game m1 = game m2) by congruence.
  assert (Hw : physics (heap m1) = physics (heap m2)) by congruence.
  unfold observe, ballPosition, ballVelocity, Position, Velocity. cbn [fst].
  rewrite Hg, Hw. reflexivity.
Qed.

Lemma trajectory_core (n : nat) (m1 m2 : Machine) :
  core m1 = core m2 -> trajectory n m1 = trajectory n m2.
Proof.
  revert m1 m2. induction n as [ | n IH ]; intros m1 m2 H; [reflexivity | ].
  cbn [trajectory]. apply exec_Update_core in H.
  rewrite (observe_core _ _ H), (IH _ _ H). reflexivity.
Qed.

(** **** Extra X13.
    Drawing does not steer the ball: in any run from any state, the
    positions and velocities of the ball seen after each [Update] call are
    those of the run that makes the same [Update] calls and nothing else,
    whatever [Draw] and [Layout] calls come in between. *)
Theorem drawing_does_not_steer (cs : list Call) (m : Machine) :
  observations cs m = trajectory (updates cs) m.
Proof.
  revert m. induction cs as [ | c cs IH ]; intros m; [reflexivity | ].
  destruct c as [ | screen | w h ]; cbn [observations updates trajectory].
  - rewrite IH. reflexivity.
  - rewrite IH. apply trajectory_core, exec_Draw_core.
  - rewrite IH. reflexivity.
Qed.

(** * More of the frame loop *)

(** ** What the calls of a run keep *)

Lemma updates_app (cs1 cs2 : list Call) :
  updates (cs1 ++ cs2) = (updates cs1 + updates cs2)%nat.
Proof.
  induction cs1 as [ | c cs1 IH ]; [reflexivity | ].
  destruct c; cbn [app updates]; rewrite IH; reflexivity.
Qed.

Lemma exec_game_refs (c : Call) (m : Machine) :
  space (game (exec c m)) = space (game m) /\
  ballBody (game (exec c m)) = ballBody (game m).
Proof.
  destruct c as [ | screen | w h ].
  - rewrite exec_Update_cases. destruct (_ <? _); auto.
  - destruct (exec_Draw_core screen m) as [H _]. unfold core in H.
    assert (Hg : game (exec (CallDraw screen) m) = game m) by congruence.
    rewrite Hg. auto.
  - auto.
Qed.

Lemma exec_fixedStep (c : Call) (m : Machine) :
  fixedStep (exec c m) = fixedStep m.
Proof. unfold fixedStep. rewrite exec_maxTPS. reflexivity. Qed.

(** **** Extra X1.
    The clock after a run, from any state, is the clock before it with the
    time step of that state added once for each [Update] call of the run:
    [Draw] and [Layout] calls do not move it, and no [Update] call is
    left out, below the cutoff or above. *)
Theorem run_clock (cs : list Call) (m : Machine) :
  clock (run cs m) = Nat.iter (updates cs) (fun t => t + fixedStep m) (clock m).
Proof.
  revert m. induction cs as [ | c cs IH ]; intros m; [reflexivity | ].
  rewrite run_cons, IH, exec_fixedStep, exec_clock.
  destruct c; cbn [updates]; [ | reflexivity | reflexivity].
  rewrite Nat.iter_succ_r. reflexivity.
Qed.

(** **** Extra X2.
    No run re-points the game or changes the setting of the ticks per
    second: after any calls the game holds the same space and the same ball
    body, and [MaxTPS] reads the same value. *)
Theorem run_keeps_references (cs : list Call) (m : Machine) :
  space (game (run cs m)) = space (game m) /\
  ballBody (game (run cs m)) = ballBody (game m) /\
  maxTPS (heap (run cs m)) = maxTPS (heap m).
Proof.
  revert m. induction cs as [ | c cs IH ]; intros m; [auto | ].
  rewrite run_cons. destruct (IH (exec c m)) as (-> & -> & ->).
  destruct (exec_game_refs c m) as [-> ->]. rewrite exec_maxTPS. auto.
Qed.

(** ** After the cutoff *)

(** One call in a reachable state at or above the cutoff. *)
Lemma exec_above_cutoff (c : Call) (m : Machine) :
  reachable m ->
  (cutoff <=? clock m) = true ->
  (cutoff <=? clock (exec c m)) = true /\
  world (exec c m) = world m /\
  stepped (heap (exec c m)) = stepped (heap m) /\
  ballBody (game (exec c m)) = ballBody (game m).
Proof.
  intros Hr Hc. destruct c as [ | screen | w h ].
  - assert (Hs : (0 <=? fixedStep m) = true)
      by (rewrite (reachable_fixedStep m Hr); exact defaultStep_nonneg).
    rewrite (Update_above_cutoff m Hs Hc). cbn [clock game time world heap].
    repeat split. apply above_cutoff_stays; assumption.
  - destruct (exec_Draw_core screen m) as [H Hst]. unfold core, world in H.
    assert (Hg : game (exec (CallDraw screen) m) = game m) by congruence.
    assert (Hw : physics (heap (exec (CallDraw screen) m)) = physics (heap m))
      by congruence.
    unfold clock, world. rewrite Hg, Hw, Hst. auto.
  - auto.
Qed.

(** **** Extra X3.
    The freeze is for good: from a reachable state with the clock at or
    above the cutoff, no sequence of calls makes another physics step.  The
    world, the record of the steps and the position and velocity of the ball
    are the same after the calls as before, and the clock is still at or
    above the cutoff. *)
Theorem frozen_for_good (cs : list Call) (m : Machine) :
  reachable m ->
  (cutoff <=? clock m) = true ->
  world (run cs m) = world m /\
  stepped (heap (run cs m)) = stepped (heap m) /\
  ballPosition (run cs m) = ballPosition m /\
  ballVelocity (run cs m) = ballVelocity m /\
  (cutoff <=? clock (run cs m)) = true.
Proof.
  revert m. induction cs as [ | c cs IH ]; intros m Hr Hc; [auto | ].
  rewrite run_cons.
  destruct (exec_above_cutoff c m Hr Hc) as (Hc' & Hw & Hs & Hb).
  destruct (IH (exec c m) (reachable_exec _ _ Hr) Hc') as (-> & -> & Hp & Hv & Hk).
  rewrite Hp, Hv. unfold ballPosition, ballVelocity, Position, Velocity.
  cbn [fst]. unfold world in Hw. rewrite Hb, Hw. auto.
Qed.

(** ** The steps of the program *)

Lemma below_spec (n : nat) (dt x : float) :
  below n dt x = true ->
  forall k, (k < n)%nat ->
    (Nat.iter (S k) (fun y => y + dt) x <? cutoff) = true.
Proof.
  revert x. induction n as [ | n IH ]; intros x Hb k Hk; [lia | ].
  cbn [below] in Hb. apply andb_true_iff in Hb as [H1 H2].
  destruct k as [ | k ]; [exact H1 | ].
  rewrite (Nat.iter_succ_r (S k)). apply IH; [exact H2 | lia].
Qed.

Lemma tick_below (k : nat) :
  (k < 360)%nat -> (tick defaultStep k + defaultStep <? cutoff) = true.
Proof.
  intros Hk. change (tick defaultStep k + defaultStep) with (tick defaultStep (S k)).
  rewrite tick_iter. apply below_spec with (n := 360%nat); [ | exact Hk].
  vm_compute. reflexivity.
Qed.

Lemma tick_not_below (k : nat) :
  (360 <= k)%nat -> (tick defaultStep k + defaultStep <? cutoff) = false.
Proof.
  intros Hk. change (tick defaultStep k + defaultStep) with (tick defaultStep (S k)).
  apply leb_not_ltb, tick_late. lia.
Qed.

(** **** Extra X4.
    The program makes 360 physics steps and no more.  After any run from
    the start with [n] [Update] calls, the world is the starting world
    stepped [min n 360] times with the step 1/60 on the space of the game,
    the record of the steps holds that many entries, and the clock is the
    sum of [n] steps. *)
Theorem program_steps (cs : list Call) :
  world (run cs boot)
  = Nat.iter (Nat.min (updates cs) 360)
      (Step (space (game boot)) defaultStep) (world boot) /\
  stepped (heap (run cs boot)) = replicate (Nat.min (updates cs) 360) defaultStep /\
  clock (run cs boot) = tick defaultStep (updates cs).
Proof.
  induction cs as [ | c cs (Hw & Hs & Hc) ] using rev_ind.
  - repeat split.
  - rewrite run_snoc, updates_app. set (m := run cs boot) in *.
    assert (Hr : reachable m) by apply reachable_run.
    destruct c as [ | screen | w h ]; cbn [updates].
    + rewrite Nat.add_1_r, exec_Update_cases.
      rewrite (reachable_fixedStep m Hr), Hc.
      destruct (run_keeps_references cs boot) as (Hsp & _ & _). fold m in Hsp.
      destruct (Nat.lt_ge_cases (updates cs) 360) as [Hlt | Hge].
      * rewrite (tick_below _ Hlt). cbn [world heap physics stepped clock game time].
        replace (Nat.min (S (updates cs)) 360) with (S (Nat.min (updates cs) 360)) by lia.
        cbn [Nat.iter]. rewrite replicate_S_end, Hsp, Hw, Hs. auto.
      * rewrite (tick_not_below _ Hge). cbn [world heap clock game time].
        replace (Nat.min (S (updates cs)) 360) with (Nat.min (updates cs) 360) by lia.
        auto.
    + rewrite Nat.add_0_r. destruct (exec_Draw_core screen m) as [H Hst].
      unfold core in H.
      assert (Hg : game (exec (CallDraw screen) m) = game m) by congruence.
      assert (Hw' : world (exec (CallDraw screen) m) = world m) by congruence.
      unfold clock. rewrite Hw', Hst, Hg. auto.
    + rewrite Nat.add_0_r. auto.
Qed.

(** ** What [Draw] draws *)

(** [Draw] on a heap with the screen in it. *)
Lemma Draw_on_screen (g : Game) (screen : ImageRef) (h : Heap) (img : Image) :
  images h !! screen = Some img ->
  images (snd (Draw g screen h)) !! screen =
  Some {| width := width img; height := height img;
          drawn := drawn img ++
            [ OpFill colornames_Black;
              OpDrawLine 0 0 800 600 color_White;
              OpDrawImage ball
                {| opColorM := [ColorM_Scale (200 / 255) (200 / 255) (200 / 255) 1];
                   opGeoM := [GeoM_Translate
                                (X (position (bodies (physics h) !!! ballBody g)))
                                (Y (position (bodies (physics h) !!! ballBody g)))] |} ]
            ++ (if time g <? cutoff
                then [ OpDebugPrint
                         (Sprintf "Time is %5.2f. ballBody is at (%5.2f, %5.2f). It's velocity is (%5.2f, %5.2f)"
                            [ time g;
                              X (position (bodies (physics h) !!! ballBody g));
                              Y (position (bodies (physics h) !!! ballBody g));
                              X (velocity (bodies (physics h) !!! ballBody g));
                              Y (velocity (bodies (physics h) !!! ballBody g)) ]) ]
                else []) |}.
Proof.
  destruct h as [p imgs tps st]. cbn [images physics]. intros Hs.
  unfold Draw, cutoff.
  destruct (time g <? float64 simulateMaxSeconds);
    lazy beta iota zeta delta
      [mbind M_bind mret M_ret Fill DrawLine DrawImage DebugPrint draw_on
       with_images Position Velocity fst snd images physics opColorM opGeoM];
    rewrite !list_lookup_alter_eq; unfold ImageRef in *; rewrite Hs;
    cbn [fmap option_fmap option_map width height drawn app];
    rewrite <- ?app_assoc; cbn [app];
    change (float64 screenWidth) with 800;
    change (float64 screenHeight) with 600;
    rewrite ?app_nil_r; reflexivity.
Qed.

(** [Draw] writes to the screen and to no other image, and creates none. *)
Lemma Draw_other_images (g : Game) (screen i : ImageRef) (h : Heap) :
  length (images (snd (Draw g screen h))) = length (images h) /\
  (i <> screen -> images (snd (Draw g screen h)) !! i = images h !! i).
Proof.
  destruct h as [p imgs tps st]. cbn [images]. unfold Draw.
  destruct (time g <? float64 simulateMaxSeconds);
    lazy beta iota zeta delta
      [mbind M_bind mret M_ret Fill DrawLine DrawImage DebugPrint draw_on
       with_images Position Velocity fst snd images physics];
    (split; [rewrite !length_alter; reflexivity | ]);
    intros Hi; rewrite !list_lookup_alter_ne by congruence; reflexivity.
Qed.

(** **** Extra X5.
    On a screen that is an image of the heap, one [Draw] call adds to what
    was drawn on it, in this order: a fill with black, the white ground line
    from (0, 0) to (800, 600), the ball image scaled in colour by 200/255
    and translated to the position of the ball body, and, only while the
    clock is below the cutoff, the debug text with the clock and the
    position and velocity of the ball.  The size of the screen is kept. *)
Theorem Draw_draws (screen : ImageRef) (m : Machine) (img : Image) :
  images (heap m) !! screen = Some img ->
  images (heap (exec (CallDraw screen) m)) !! screen =
  Some {| width := width img; height := height img;
          drawn := drawn img ++
            [ OpFill colornames_Black;
              OpDrawLine 0 0 800 600 color_White;
              OpDrawImage ball
                {| opColorM := [ColorM_Scale (200 / 255) (200 / 255) (200 / 255) 1];
                   opGeoM := [GeoM_Translate (X (ballPosition m)) (Y (ballPosition m))] |} ]
            ++ (if clock m <? cutoff
                then [ OpDebugPrint
                         (Sprintf "Time is %5.2f. ballBody is at (%5.2f, %5.2f). It's velocity is (%5.2f, %5.2f)"
                            [ clock m; X (ballPosition m); Y (ballPosition m);
                              X (ballVelocity m); Y (ballVelocity m) ]) ]
                else []) |}.
Proof.
  intros Hs. pose proof (Draw_on_screen (game m) screen (heap m) img Hs) as H.
  unfold exec. destruct (Draw (game m) screen (heap m)) as [g h].
  cbn [heap]. exact H.
Qed.

(** **** Extra X6.
    [Draw] draws on the screen it is given and on nothing else: every other
    image of the heap is as before the call, and no image is created. *)
Theorem Draw_only_on_screen (screen i : ImageRef) (m : Machine) :
  length (images (heap (exec (CallDraw screen) m))) = length (images (heap m)) /\
  (i <> screen ->
   images (heap (exec (CallDraw screen) m)) !! i = images (heap m) !! i).
Proof.
  pose proof (Draw_other_images (game m) screen i (heap m)) as H.
  unfold exec. destruct (Draw (game m) screen (heap m)) as [g h].
  cbn [heap]. exact H.
Qed.

Lemma exec_keeps_image (c : Call) (i : ImageRef) (m : Machine) :
  c <> CallDraw i ->
  images (heap (exec c m)) !! i = images (heap m) !! i.
Proof.
  intros Hc. destruct c as [ | screen | w h ].
  - rewrite exec_Update_cases. destruct (_ <? _); reflexivity.
  - pose proof (Draw_other_images (game m) screen i (heap m)) as [_ H].
    unfold exec. destruct (Draw (game m) screen (heap m)) as [g h'].
    cbn [heap]. apply H. congruence.
  - reflexivity.
Qed.

(** **** Extra X7.
    The ball image that [init] makes stays as [init] left it: along every
    run in which no [Draw] call is given the ball image itself as its
    screen, the package variable [ball] is a 5 by 5 image on which only the
    white fill of [init] has been drawn. *)
Theorem ball_image_kept (tps : Z) (cs : list Call) :
  Forall (fun c => c <> CallDraw ball) cs ->
  images (heap (run cs (start tps))) !! ball =
  Some {| width := 5; height := 5; drawn := [OpFill color_White] |}.
Proof.
  induction cs as [ | c cs IH ] using rev_ind; intros Hcs.
  - vm_compute. reflexivity.
  - apply Forall_app in Hcs as [Hcs Hc]. inversion Hc as [ | c' l' Hne _ ]; subst.
    rewrite run_snoc, (exec_keeps_image c ball _ Hne). apply IH, Hcs.
Qed.

(** ** The setting of the ticks per second at its edges *)

Lemma add_infinity_not_below (x : float) : (x + infinity <? cutoff) = false.
Proof.
  rewrite cutoff_eq, ltb_spec, add_spec.
  change (Prim2SF infinity) with (S754_infinity false).
  change (Prim2SF 6) with (S754_finite false 6755399441055744 (-50)).
  destruct (Prim2SF x) as [ [ | ] | [ | ] | | [ | ] mx ex ]; reflexivity.
Qed.

(** **** Extra X9.
    With the setting zero the division in [Update] does not fail: the time
    step is plus infinity, the clock becomes the clock plus infinity, and
    whatever the clock was the call makes no physics step and leaves the
    heap as it is. *)
Theorem Update_zero_setting (m : Machine) :
  maxTPS (heap m) = 0%Z ->
  fixedStep m = infinity /\
  heap (exec CallUpdate m) = heap m /\
  clock (exec CallUpdate m) = clock m + infinity.
Proof.
  intros H0.
  assert (Hs : fixedStep m = infinity) by (unfold fixedStep; rewrite H0; reflexivity).
  split; [exact Hs | ].
  rewrite exec_Update_above; rewrite Hs; [auto | apply add_infinity_not_below].
Qed.

Lemma shr_m_of_loc (m : Z) (l : location) : shr_m (shr_record_of_loc m l) = m.
Proof. destruct l as [ | [ | | ] ]; reflexivity. Qed.

Lemma shr_m_nonneg (mrs : shr_record) (e n : Z) :
  0 <= shr_m mrs -> 0 <= shr_m (fst (shr mrs e n)).
Proof.
  intros Hm. destruct (shr_cases mrs e n Hm) as [[_ ->] | (Hn & -> & _)];
    [exact Hm | ].
  apply Z.div_pos; [exact Hm | apply Z.pow_pos_nonneg; lia].
Qed.

(** Rounding a value that is not negative, with the sign bit clear, gives a
    float with the sign bit clear. *)
Lemma binary_round_aux_nonneg (mz ez : Z) (lz : location) :
  0 <= mz -> SFnonneg (binary_round_aux prec emax false mz ez lz) = true.
Proof.
  intros Hm. unfold binary_round_aux, shr_fexp.
  match goal with |- context [shr ?r ?e ?n] =>
    pose proof (shr_m_nonneg r e n) as H1; destruct (shr r e n) as [mrs' e']
  end.
  rewrite shr_m_of_loc in H1. specialize (H1 Hm). cbn [fst] in H1.
  pose proof (round_nearest_even_bounds (shr_m mrs') (loc_of_shr_record mrs')) as Hr.
  match goal with |- context [shr ?r ?e ?n] =>
    pose proof (shr_m_nonneg r e n) as H2; destruct (shr r e n) as [mrs'' e'']
  end.
  rewrite shr_m_of_loc in H2. specialize (H2 ltac:(lia)). cbn [fst] in H2.
  destruct (shr_m mrs'') as [ | p | p ]; [reflexivity | | lia].
  destruct (e'' <=? emax - prec)%Z; reflexivity.
Qed.

Lemma binary_normalize_nonneg (z e : Z) :
  0 <= z -> SFnonneg (binary_normalize prec emax z e false) = true.
Proof.
  intros Hz. destruct z as [ | p | p ]; [reflexivity | | lia].
  cbn [binary_normalize]. unfold binary_round.
  destruct (shl_align p e _) as [mz ez]. apply binary_round_aux_nonneg. lia.
Qed.

Lemma SFldexp_nonneg (x : spec_float) (e : Z) :
  SFnonneg x = true -> SFnonneg (SFldexp prec emax x e) = true.
Proof.
  destruct x as [ [ | ] | [ | ] | | [ | ] mx ex ]; try discriminate;
    try (intros _; reflexivity).
  intros _. cbn [SFldexp]. unfold binary_round.
  destruct (shl_align mx (ex + e) _) as [mz ez]. apply binary_round_aux_nonneg. lia.
Qed.

Lemma SF2Prim_nonneg (x : spec_float) :
  SFnonneg x = true -> SFnonneg (Prim2SF (SF2Prim x)) = true.
Proof.
  destruct x as [ [ | ] | [ | ] | | [ | ] mx ex ]; try discriminate;
    try (intros _; reflexivity).
  intros _. cbn [SF2Prim]. rewrite Z_ldexp_spec, of_uint63_spec.
  apply SFldexp_nonneg, binary_normalize_nonneg, Uint63.to_Z_bounded.
Qed.

(** The conversion of an integer that is not negative has the sign bit
    clear. *)
Lemma float64_nonneg (z : Z) : 0 <= z -> SFnonneg (Prim2SF (float64 z)) = true.
Proof.
  intros Hz. unfold float64. apply SF2Prim_nonneg, binary_normalize_nonneg, Hz.
Qed.

Lemma SFnonneg_leb (x : spec_float) :
  SFnonneg x = true -> SFleb (S754_zero false) x = true.
Proof. destruct x as [ [ | ] | [ | ] | | [ | ] mx ex ]; try discriminate; reflexivity. Qed.

Lemma SFdiv_core_nonneg (mx my : positive) (ex ey : Z) :
  0 <= fst (fst (SFdiv_core_binary prec emax (Z.pos mx) ex (Z.pos my) ey)).
Proof.
  unfold SFdiv_core_binary.
  match goal with |- context [Z.div_eucl ?a ?b] =>
    assert (Ha : 0 <= a);
    [ | pose proof (Z_div_mod a b ltac:(lia)) as Hd; destruct (Z.div_eucl a b) as [q r] ]
  end.
  - match goal with |- 0 <= match ?s with _ => _ end => destruct s end;
      [lia | apply Z.shiftl_nonneg; lia | lia].
  - cbn [fst]. nia.
Qed.

(** One over a float with the sign bit clear is not negative. *)
Lemma one_over_nonneg (y : float) :
  SFnonneg (Prim2SF y) = true -> (0 <=? 1 / y) = true.
Proof.
  intros Hy. rewrite leb_spec, div_spec.
  change (Prim2SF 0) with (S754_zero false).
  change (Prim2SF 1) with (S754_finite false 4503599627370496 (-52)).
  apply SFnonneg_leb.
  destruct (Prim2SF y) as [ [ | ] | [ | ] | | [ | ] my ey ]; try discriminate;
    try reflexivity.
  unfold SF64div, SFdiv.
  pose proof (SFdiv_core_nonneg 4503599627370496 my (-52) ey) as Hq.
  destruct (SFdiv_core_binary prec emax _ _ _ _) as [[mz ez] lz].
  cbn [fst] in Hq. cbn [xorb]. apply binary_round_aux_nonneg, Hq.
Qed.

Lemma fixedStep_nonneg (m : Machine) :
  (0 <= maxTPS (heap m))%Z -> (0 <=? fixedStep m) = true.
Proof. intros H. apply one_over_nonneg, float64_nonneg, H. Qed.

(** **** Extra X10.
    The freeze does not depend on the setting being 60, nor on the state
    being one of a run: in any state with a setting of the ticks per second
    that is not negative (zero included) and the clock at or above the
    cutoff, [Update] makes no physics step and leaves the heap, and the
    position and velocity of the ball, as they are. *)
Theorem freeze_for_any_setting (m : Machine) :
  (0 <= maxTPS (heap m))%Z ->
  (cutoff <=? clock m) = true ->
  heap (exec CallUpdate m) = heap m /\
  ballPosition (exec CallUpdate m) = ballPosition m /\
  ballVelocity (exec CallUpdate m) = ballVelocity m.
Proof.
  intros Ht Hc.
  rewrite (Update_above_cutoff m (fixedStep_nonneg m Ht) Hc). auto.
Qed.

(** One call, and then any run, keeps a clock that is at or above the
    cutoff there, whatever the heap holds, as long as the setting is not
    negative. *)
Lemma exec_stays_above (c : Call) (m : Machine) :
  (0 <= maxTPS (heap m))%Z ->
  (cutoff <=? clock m) = true ->
  (cutoff <=? clock (exec c m)) = true.
Proof.
  intros Ht Hc. rewrite exec_clock. destruct c; [ | exact Hc | exact Hc].
  apply above_cutoff_stays; [apply fixedStep_nonneg, Ht | exact Hc].
Qed.

Lemma run_stays_above (cs : list Call) (m : Machine) :
  (0 <= maxTPS (heap m))%Z ->
  (cutoff <=? clock m) = true ->
  (cutoff <=? clock (run cs m)) = true.
Proof.
  revert m. induction cs as [ | c cs IH ]; intros m Ht Hc; [exact Hc | ].
  rewrite run_cons. apply IH; [rewrite exec_maxTPS; exact Ht | ].
  apply exec_stays_above; assumption.
Qed.

(** **** Extra X8.
    The debug text does not come back.  Take any state with a setting that
    is not negative and the clock at or above the cutoff, whatever images
    its heap holds: the states of the program after the cutoff are such
    states, with the screens of the framework in the heap.  After any
    further calls, a [Draw] call on a screen of the heap adds the fill, the
    ground line and the ball image to it, and no text. *)
Theorem no_text_after_cutoff (cs : list Call) (screen : ImageRef)
    (m : Machine) (img : Image) :
  (0 <= maxTPS (heap m))%Z ->
  (cutoff <=? clock m) = true ->
  images (heap (run cs m)) !! screen = Some img ->
  images (heap (exec (CallDraw screen) (run cs m))) !! screen =
  Some {| width := width img; height := height img;
          drawn := drawn img ++
            [ OpFill colornames_Black;
              OpDrawLine 0 0 800 600 color_White;
              OpDrawImage ball
                {| opColorM := [ColorM_Scale (200 / 255) (200 / 255) (200 / 255) 1];
                   opGeoM := [GeoM_Translate (X (ballPosition (run cs m)))
                                             (Y (ballPosition (run cs m)))] |} ] |}.
Proof.
  intros Ht Hc Hs.
  pose proof (run_stays_above cs m Ht Hc) as Hc'.
  apply leb_not_ltb in Hc'.
  pose proof (Draw_on_screen (game (run cs m)) screen (heap (run cs m)) img Hs) as H.
  unfold clock in Hc'. rewrite Hc', app_nil_r in H.
  unfold exec. destruct (Draw (game (run cs m)) screen (heap (run cs m))) as [g h].
  cbn [heap]. exact H.
Qed.

(** ** The clock never goes back *)

Lemma SFltb_SFleb (a b : spec_float) : SFltb a b = true -> SFleb a b = true.
Proof.
  unfold SFltb, SFleb. destruct (SFcompare a b) as [ [ | | ] | ]; congruence.
Qed.

Lemma SFleb_refl (a : spec_float) : a <> S754_nan -> SFleb a a = true.
Proof.
  intros Ha. unfold SFleb.
  destruct a as [ [ | ] | [ | ] | | [ | ] m e ]; try reflexivity;
    try congruence; cbn [SFcompare];
    rewrite Z.compare_refl, Pos.compare_cont_refl; reflexivity.
Qed.

Lemma leb_refl_of_ltb (a b : float) : (a <? b) = true -> (a <=? a) = true.
Proof.
  rewrite ltb_spec, leb_spec. intros H. apply SFleb_refl.
  intros E. rewrite E in H. discriminate H.
Qed.

Lemma leb_refl_of_leb (a b : float) : (a <=? b) = true -> (b <=? b) = true.
Proof.
  rewrite !leb_spec. intros H. apply SFleb_refl.
  intros E. rewrite E in H. destruct (Prim2SF a); discriminate H.
Qed.

Lemma above_cutoff_positive (x : float) :
  (cutoff <=? x) = true -> (0 <? x) = true.
Proof.
  rewrite cutoff_eq, leb_spec, ltb_spec.
  change (Prim2SF 0) with (S754_zero false).
  change (Prim2SF 6) with (S754_finite false 6755399441055744 (-50)).
  destruct (Prim2SF x) as [ [ | ] | [ | ] | | [ | ] mx ex ];
    try discriminate; reflexivity.
Qed.

Lemma tick_ordered (k : nat) :
  (tick defaultStep k <=? tick defaultStep k) = true /\
  (tick defaultStep k <=? tick defaultStep k + defaultStep) = true.
Proof.
  destruct (Nat.lt_ge_cases k 361) as [Hk | Hk].
  - pose proof (tick_early k Hk) as H. split.
    + exact (leb_refl_of_ltb _ _ H).
    + rewrite leb_spec. rewrite ltb_spec in H. apply SFltb_SFleb, H.
  - pose proof (tick_late k Hk) as H.
    pose proof (leb_refl_of_leb _ _ H) as Hrefl. split; [exact Hrefl | ].
    apply add_ge; [apply above_cutoff_positive, H | exact Hrefl | ].
    exact defaultStep_nonneg.
Qed.

(** **** Extra X11.
    In a run of the program the clock never goes back: whatever the call,
    the clock after it is at or above the clock before it, below the cutoff
    as well as above it.  In particular the clock is never NaN. *)
Theorem clock_never_goes_back (c : Call) (m : Machine) :
  reachable m ->
  (clock m <=? clock (exec c m)) = true.
Proof.
  intros Hr. destruct (reachable_clock m Hr) as [k Hk].
  rewrite exec_clock, Hk. destruct (tick_ordered k) as [H1 H2].
  destruct c; [ | exact H1 | exact H1].
  rewrite (reachable_fixedStep m Hr). exact H2.
Qed.

(** ** The running phase *)

Lemma run_boot_clock (cs : list Call) :
  clock (run cs boot) = tick defaultStep (updates cs).
Proof.
  induction cs as [ | c cs IH ] using rev_ind; [apply start_clock | ].
  rewrite run_snoc, updates_app, exec_clock, IH.
  destruct c; cbn [updates]; rewrite ?Nat.add_0_r; try reflexivity.
  rewrite Nat.add_1_r, (reachable_fixedStep _ (reachable_run cs)). reflexivity.
Qed.

(** **** Extra X12.
    [Draw] shows the debug text, and [Update] has the clock below the
    cutoff, exactly in the states of a run that follow at most 360 [Update]
    calls: the comparison of the clock with the cutoff is true there and
    false from the 361st [Update] call on. *)
Theorem running_phase (cs : list Call) :
  (clock (run cs boot) <? cutoff) = (updates cs <=? 360)%nat.
Proof.
  rewrite run_boot_clock. destruct (updates cs) as [ | k ]; [reflexivity | ].
  change (tick defaultStep (S k)) with (tick defaultStep k + defaultStep).
  destruct (Nat.lt_ge_cases k 360) as [Hk | Hk].
  - rewrite (tick_below k Hk). symmetry. apply Nat.leb_le. lia.
  - rewrite (tick_not_below k Hk). symmetry. apply Nat.leb_gt. lia.
Qed.

End Program.

(** * The program on the stand-in engine *)

Local Open Scope float_scope.

(** The frame loop steps the world 360 times and then no more: the sum of
    360 steps of 1/60 is just below 6 in binary64. *)
Example steps_of_a_long_run :
  length (stepped (heap (run freefall_Step (replicate 400 CallUpdate)
                             (boot circle_moment)))) = 360%nat.
Proof. vm_compute. reflexivity. Qed.

Example steps_of_three_frames :
  stepped (heap (run freefall_Step
                   [CallUpdate; CallDraw 1%nat; CallUpdate; CallLayout 640 480;
                    CallUpdate]
                   (boot circle_moment)))
  = [defaultStep; defaultStep; defaultStep].
Proof. vm_compute. reflexivity. Qed.

(** Claim C1 at the state after 361 [Update] calls, where the clock has
    passed the cutoff. *)
Lemma Update_freezes_world_witness :
  let m := run freefall_Step (replicate 361 CallUpdate) (boot circle_moment) in
  reachable freefall_Step circle_moment m /\
  (cutoff <=? clock m) = true /\
  world (exec freefall_Step CallUpdate m) = world m /\
  ballPosition (exec freefall_Step CallUpdate m) = ballPosition m /\
  ballVelocity (exec freefall_Step CallUpdate m) = ballVelocity m.
Proof.
  intros m.
  assert (Hr : reachable freefall_Step circle_moment m) by apply reachable_run.
  assert (Hc : (cutoff <=? clock m) = true) by (vm_compute; reflexivity).
  split; [exact Hr | ]. split; [exact Hc | ].
  exact (Update_freezes_world freefall_Step circle_moment m Hr Hc).
Defined.

(** Claim C2 as stated fails at the state after 360 [Update] calls: the
    clock is still below the cutoff, and the next [Update] call makes no
    physics step. *)
Lemma Update_below_cutoff_without_step :
  let m := run freefall_Step (replicate 360 CallUpdate) (boot circle_moment) in
  reachable freefall_Step circle_moment m /\
  (clock m <? cutoff) = true /\
  ~ advanced_by_one_step freefall_Step (fixedStep m) m
      (exec freefall_Step CallUpdate m).
Proof.
  intros m. split; [apply reachable_run | ]. split; [vm_compute; reflexivity | ].
  intros (_ & H & _). apply (f_equal length) in H. vm_compute in H.
  discriminate H.
Qed.

(** The amended claim C2 at the first frame. *)
Lemma Update_advances_witness :
  let m := boot circle_moment in
  reachable freefall_Step circle_moment m /\
  (clock m + fixedStep m <? cutoff) = true /\
  advanced_by_one_step freefall_Step (fixedStep m) m
    (exec freefall_Step CallUpdate m).
Proof.
  intros m.
  assert (Hr : reachable freefall_Step circle_moment m) by apply reachable_boot.
  assert (Hc : (clock m + fixedStep m <? cutoff) = true) by (vm_compute; reflexivity).
  split; [exact Hr | ]. split; [exact Hc | ].
  exact (Update_advances freefall_Step circle_moment m Hr Hc).
Defined.

(** Claim C4 as stated fails at the state after 361 [Update] calls: the
    clock is above the cutoff, and the next [Update] call changes it. *)
Lemma Update_above_cutoff_moves_clock :
  let m := run freefall_Step (replicate 361 CallUpdate) (boot circle_moment) in
  reachable freefall_Step circle_moment m /\
  (cutoff <=? clock m) = true /\
  clock (exec freefall_Step CallUpdate m) <> clock m.
Proof.
  intros m. split; [apply reachable_run | ]. split; [vm_compute; reflexivity | ].
  intros H. apply (f_equal (fun x => clock m <? x)) in H.
  vm_compute in H. discriminate H.
Qed.

(** * The further properties on the stand-in engine *)

(** Extra X3 at the state after 361 [Update] calls, followed by three more
    frames. *)
Lemma frozen_for_good_witness :
  let m := run freefall_Step (replicate 361 CallUpdate) (boot circle_moment) in
  let cs := [CallUpdate; CallDraw ball; CallUpdate; CallLayout 640 480; CallUpdate] in
  reachable freefall_Step circle_moment m /\
  (cutoff <=? clock m) = true /\
  world (run freefall_Step cs m) = world m /\
  stepped (heap (run freefall_Step cs m)) = stepped (heap m) /\
  ballPosition (run freefall_Step cs m) = ballPosition m /\
  ballVelocity (run freefall_Step cs m) = ballVelocity m /\
  (cutoff <=? clock (run freefall_Step cs m)) = true.
Proof.
  intros m cs.
  assert (Hr : reachable freefall_Step circle_moment m) by apply reachable_run.
  assert (Hc : (cutoff <=? clock m) = true) by (vm_compute; reflexivity).
  split; [exact Hr | ]. split; [exact Hc | ].
  exact (frozen_for_good freefall_Step circle_moment cs m Hr Hc).
Defined.

(** Extra X5 on the first frame, with an 800 by 600 screen allocated next
    to the ball image. *)
Lemma Draw_draws_witness :
  let m := exec freefall_Step CallUpdate
             {| game := game (boot circle_moment);
                heap := snd (NewImage 800 600 (heap (boot circle_moment))) |} in
  let img := {| width := 800; height := 600; drawn := [] |} in
  images (heap m) !! 1%nat = Some img /\
  images (heap (exec freefall_Step (CallDraw 1%nat) m)) !! 1%nat =
  Some {| width := width img; height := height img;
          drawn := drawn img ++
            [ OpFill colornames_Black;
              OpDrawLine 0 0 800 600 color_White;
              OpDrawImage ball
                {| opColorM := [ColorM_Scale (200 / 255) (200 / 255) (200 / 255) 1];
                   opGeoM := [GeoM_Translate (X (ballPosition m)) (Y (ballPosition m))] |} ]
            ++ (if clock m <? cutoff
                then [ OpDebugPrint
                         (Sprintf "Time is %5.2f. ballBody is at (%5.2f, %5.2f). It's velocity is (%5.2f, %5.2f)"
                            [ clock m; X (ballPosition m); Y (ballPosition m);
                              X (ballVelocity m); Y (ballVelocity m) ]) ]
                else []) |}.
Proof.
  intros m img.
  assert (Hs : images (heap m) !! 1%nat = Some img) by (vm_compute; reflexivity).
  split; [exact Hs | ].
  exact (Draw_draws freefall_Step 1%nat m img Hs).
Defined.

(** Extra X7 on a run that draws on another image than the ball. *)
Lemma ball_image_kept_witness :
  let cs := [CallUpdate; CallDraw 1%nat; CallLayout 640 480; CallUpdate] in
  Forall (fun c => c <> CallDraw ball) cs /\
  images (heap (run freefall_Step cs (start circle_moment 60))) !! ball =
  Some {| width := 5; height := 5; drawn := [OpFill color_White] |}.
Proof.
  intros cs.
  assert (Hcs : Forall (fun c => c <> CallDraw ball) cs)
    by (repeat constructor; discriminate).
  split; [exact Hcs | ].
  exact (ball_image_kept freefall_Step circle_moment 60 cs Hcs).
Defined.

(** Extra X8 with an 800 by 600 screen allocated next to the ball image:
    the state after 361 [Update] calls and one drawn frame, then two more
    [Update] calls and a [Layout] call, then the [Draw] call on that
    screen. *)
Lemma no_text_after_cutoff_witness :
  let m := run freefall_Step (replicate 361 CallUpdate ++ [CallDraw 1%nat])
             {| game := game (boot circle_moment);
                heap := snd (NewImage 800 600 (heap (boot circle_moment))) |} in
  let cs := [CallUpdate; CallLayout 800 600; CallUpdate] in
  let img := images (heap m) !!! 1%nat in
  (0 <= maxTPS (heap m))%Z /\
  (cutoff <=? clock m) = true /\
  images (heap (run freefall_Step cs m)) !! 1%nat = Some img /\
  (width img, height img, length (drawn img)) = (800, 600, 3%nat)%Z /\
  images (heap (exec freefall_Step (CallDraw 1%nat) (run freefall_Step cs m))) !! 1%nat =
  Some {| width := width img; height := height img;
          drawn := drawn img ++
            [ OpFill colornames_Black;
              OpDrawLine 0 0 800 600 color_White;
              OpDrawImage ball
                {| opColorM := [ColorM_Scale (200 / 255) (200 / 255) (200 / 255) 1];
                   opGeoM := [GeoM_Translate
                                (X (ballPosition (run freefall_Step cs m)))
                                (Y (ballPosition (run freefall_Step cs m)))] |} ] |}.
Proof.
  intros m cs img.
  assert (Ht : (0 <= maxTPS (heap m))%Z) by (vm_compute; discriminate).
  assert (Hc : (cutoff <=? clock m) = true) by (vm_compute; reflexivity).
  assert (Hs : images (heap (run freefall_Step cs m)) !! 1%nat = Some img)
    by (vm_compute; reflexivity).
  split; [exact Ht | ]. split; [exact Hc | ]. split; [exact Hs | ].
  split; [vm_compute; reflexivity | ].
  exact (no_text_after_cutoff freefall_Step cs 1%nat m img Ht Hc Hs).
Defined.

(** Extra X9 at the start of the program with the setting zero. *)
Lemma Update_zero_setting_witness :
  let m := start circle_moment 0 in
  maxTPS (heap m) = 0%Z /\
  fixedStep m = infinity /\
  heap (exec freefall_Step CallUpdate m) = heap m /\
  clock (exec freefall_Step CallUpdate m) = clock m + infinity.
Proof.
  intros m.
  assert (H0 : maxTPS (heap m) = 0%Z) by reflexivity.
  split; [exact H0 | ].
  exact (Update_zero_setting freefall_Step m H0).
Defined.

(** Extra X10 after 200 [Update] calls with the setting 30, where the clock
    has passed the cutoff. *)
Lemma freeze_for_any_setting_witness :
  let m := run freefall_Step (replicate 200 CallUpdate) (start circle_moment 30) in
  (0 <= maxTPS (heap m))%Z /\
  (cutoff <=? clock m) = true /\
  heap (exec freefall_Step CallUpdate m) = heap m /\
  ballPosition (exec freefall_Step CallUpdate m) = ballPosition m /\
  ballVelocity (exec freefall_Step CallUpdate m) = ballVelocity m.
Proof.
  intros m.
  assert (Ht : (0 <= maxTPS (heap m))%Z) by (vm_compute; discriminate).
  assert (Hc : (cutoff <=? clock m) = true) by (vm_compute; reflexivity).
  split; [exact Ht | ]. split; [exact Hc | ].
  exact (freeze_for_any_setting freefall_Step m Ht Hc).
Defined.

(** Extra X11 on the first [Update] call of the program. *)
Lemma clock_never_goes_back_witness :
  let m := boot circle_moment in
  reachable freefall_Step circle_moment m /\
  (clock m <=? clock (exec freefall_Step CallUpdate m)) = true.
Proof.
  intros m.
  assert (Hr : reachable freefall_Step circle_moment m) by apply reachable_boot.
  split; [exact Hr | ].
  exact (clock_never_goes_back freefall_Step circle_moment CallUpdate m Hr).
Defined.
